(** * The WebSocket hub of [10-websockets/main.go]

    A shallow embedding of [Hub], [newHub], [Hub.run] and [Hub.handleWS],
    followed by the properties of the hub: membership of the client map,
    the calls made on connections, and who touches the map. *)

From Stdlib.Strings Require Import Ascii Byte.
From stdpp Require Import gmap strings list fin_maps.

(** ** Data *)

(** A [*websocket.Conn] is used only through its pointer identity (as map
    key) and through the library calls made on it. *)
Abbreviation Conn := positive (only parsing).

(** A message is a Go [[]byte]. *)
Abbreviation Msg := (list byte) (only parsing).

#[global] Instance byte_eq_dec : EqDecision byte := Byte.byte_eq_dec.

(** [websocket.TextMessage] *)
Definition TextMessage : Z := 1.

(** The format strings of the three [fmt.Printf] calls of [run]; each ends
    in a newline, written [\n] in the Go source. *)
Definition newline : string := String "010"%char EmptyString.
Definition fmt_connected : string :=
  "Client connected. Total clients: %d" +:+ newline.
Definition fmt_disconnected : string :=
  "Client disconnected. Total clients: %d" +:+ newline.
Definition fmt_broadcasting : string :=
  "Broadcasting message to %d clients" +:+ newline.

(** Calls that leave the hub: the two methods of [*websocket.Conn] used by
    [run] (with the error result of [WriteMessage]: [true] is [err != nil])
    and [fmt.Printf] with its format and its single [%d] argument. *)
Inductive Call :=
  | CallWriteMessage (c : Conn) (messageType : Z) (data : Msg) (err : bool)
  | CallClose (c : Conn)
  | CallPrintf (format : string) (n : nat).

#[global] Instance Call_eq_dec : EqDecision Call.
Proof. solve_decision. Defined.

(** A Go map value: the zero value [nil], or a map made by [make]. *)
Inductive GoMap :=
  | NilMap
  | Made (m : gmap Conn bool).

(** A Go channel as [make(chan T, cap)] creates it: its capacity and the
    values buffered in it, oldest first. *)
Record Chan (T : Type) := MkChan { chan_cap : nat; chan_buf : list T }.
Arguments MkChan {T} _ _.
Arguments chan_cap {T} _.
Arguments chan_buf {T} _.

(** [make(chan T)]: no capacity argument, an unbuffered channel. *)
Definition make_chan {T : Type} : Chan T := MkChan 0 [].

(** [type Hub struct] *)
Record Hub := MkHub {
  clients : GoMap;
  broadcast : Chan Msg;
  register : Chan Conn;
  unregister : Chan Conn
}.

(** [func newHub() *Hub] *)
Definition newHub : Hub :=
  {| clients := Made ∅;
     broadcast := make_chan;
     register := make_chan;
     unregister := make_chan |}.

Definition set_clients (h : Hub) (cl : GoMap) : Hub :=
  {| clients := cl;
     broadcast := broadcast h;
     register := register h;
     unregister := unregister h |}.

(** The state [run] works on: the hub behind the pointer [h] and the calls
    made so far, oldest first. *)
Record St := MkSt { hub : Hub; calls : list Call }.

(** ** A state monad with panics *)

Inductive Result (A : Type) :=
  | Ok (a : A) (s : St)
  | Panic (why : string).
Arguments Ok {A} _ _.
Arguments Panic {A} _.

Definition M (A : Type) : Type := St → Result A.

#[global] Instance M_ret : MRet M := λ A a s, Ok a s.
#[global] Instance M_bind : MBind M := λ A B f x s,
  match x s with
  | Ok a s' => f a s'
  | Panic why => Panic why
  end.

Definition log (c : Call) : M unit :=
  λ s, Ok tt {| hub := hub s; calls := calls s ++ [c] |}.

(** ** Go map operations on [h.clients] *)

(** [h.clients[k] = v]; an assignment to an entry of a nil map panics. *)
Definition map_assign (k : Conn) (v : bool) : M unit := λ s,
  match clients (hub s) with
  | NilMap => Panic "assignment to entry in nil map"
  | Made m => Ok tt {| hub := set_clients (hub s) (Made (<[k:=v]> m)); calls := calls s |}
  end.

(** [v, ok := h.clients[k]]; the zero value and [false] when absent or nil. *)
Definition map_lookup (k : Conn) : M (bool * bool) := λ s,
  match clients (hub s) with
  | NilMap => Ok (false, false) s
  | Made m => match m !! k with
              | Some v => Ok (v, true) s
              | None => Ok (false, false) s
              end
  end.

(** [delete(h.clients, k)]; a no-op when absent or nil. *)
Definition map_delete (k : Conn) : M unit := λ s,
  match clients (hub s) with
  | NilMap => Ok tt s
  | Made m => Ok tt {| hub := set_clients (hub s) (Made (delete k m)); calls := calls s |}
  end.

(** [len(h.clients)] *)
Definition map_len : M nat := λ s,
  match clients (hub s) with
  | NilMap => Ok 0 s
  | Made m => Ok (size m) s
  end.

(** The keys of a made map, in the canonical order of [gmap]. *)
Definition map_keys (m : gmap Conn bool) : list Conn := (map_to_list m).*1.

(** [for k := range h.clients { body }], given the order in which the
    iterator would produce the keys of the map as it is when the loop
    starts: an entry removed before it is reached is not produced. *)
Fixpoint range_loop (order : list Conn) (body : Conn → M unit) : M unit :=
  match order with
  | [] => mret tt
  | k :: rest =>
      '(_, present) ← map_lookup k;
      (if (present : bool) then body k else mret tt);;
      range_loop rest body
  end.

(** What [run] receives in one turn of its [for { select { ... } }]: a
    value from [h.register], [h.unregister] or [h.broadcast]. *)
Inductive Event :=
  | Register (client : Conn)
  | Unregister (client : Conn)
  | Broadcast (message : Msg).

#[global] Instance Event_eq_dec : EqDecision Event.
Proof. solve_decision. Defined.

Section Coordinator.

(** The world outside the hub. [write_err t c m] tells whether
    [c.WriteMessage(TextMessage, m)] returns an error when [t] are the
    calls made before it; [range_order t m] is the order in which a
    [range] over [m] started after the calls [t] produces its keys. Every
    call extends the history, so the same connection can succeed once and
    fail later, and two loops over the same map can run in different
    orders. *)
Variable write_err : list Call → Conn → Msg → bool.
Variable range_order : list Call → gmap Conn bool → list Conn.

(** [range] produces every key of the map once, in an unspecified order. *)
Definition range_ok : Prop :=
  ∀ t m, range_order t m ≡ₚ map_keys m.

Definition WriteMessage (c : Conn) (messageType : Z) (data : Msg) : M bool := λ s,
  let err := write_err (calls s) c data in
  Ok err {| hub := hub s;
            calls := calls s ++ [CallWriteMessage c messageType data err] |}.

Definition Close (c : Conn) : M unit := log (CallClose c).

Definition Printf (format : string) (n : nat) : M unit := log (CallPrintf format n).

Definition map_range (body : Conn → M unit) : M unit := λ s,
  match clients (hub s) with
  | NilMap => Ok tt s
  | Made m => range_loop (range_order (calls s) m) body s
  end.

(** The body of the [range] loop of the broadcast case. *)
Definition broadcast_body (message : Msg) (client : Conn) : M unit :=
  err ← WriteMessage client TextMessage message;
  if (err : bool) then
    Close client;;
    map_delete client
  else mret tt.

(** One turn of the loop of [func (h *Hub) run()]: the [select] case
    taken for the received value. *)
Definition run_case (ev : Event) : M unit :=
  match ev with
  | Register client =>
      map_assign client true;;
      n ← map_len;
      Printf fmt_connected n
  | Unregister client =>
      '(_, ok) ← map_lookup client;
      if (ok : bool) then
        map_delete client;;
        Close client;;
        n ← map_len;
        Printf fmt_disconnected n
      else mret tt
  | Broadcast message =>
      n ← map_len;
      Printf fmt_broadcasting n;;
      map_range (broadcast_body message)
  end.

(** [run] on the events it receives, in the order it receives them. The
    loop of [run] never exits; a list of events gives its first turns. *)
Fixpoint run (evs : list Event) : M unit :=
  match evs with
  | [] => mret tt
  | ev :: rest => run_case ev;; run rest
  end.

End Coordinator.

(** ** [handleWS] and the goroutines around the hub *)

(** Where the code started by one call of [handleWS] stands, once
    [upgrader.Upgrade] has returned its connection. (When [Upgrade] fails,
    [handleWS] logs and returns without touching the hub.) *)
Inductive Pc :=
  | AtRegister                    (* h.register <- conn *)
  | AtRead                        (* conn.ReadMessage() *)
  | AtBroadcast (message : Msg)   (* h.broadcast <- message *)
  | AtUnregister                  (* deferred: h.unregister <- conn *)
  | Exited.

(** The channel send the code is at, if it is at one: the value sent, as
    the event [run] will receive, and where the code goes on after it. *)
Definition handleWS_send (conn : Conn) (pc : Pc) : option (Event * Pc) :=
  match pc with
  | AtRegister => Some (Register conn, AtRead)
  | AtBroadcast message => Some (Broadcast message, AtRead)
  | AtUnregister => Some (Unregister conn, Exited)
  | AtRead | Exited => None
  end.

(** After [_, message, err := conn.ReadMessage()]: [None] is [err != nil],
    which leaves the loop and runs the deferred send. *)
Definition handleWS_read (res : option Msg) : Pc :=
  match res with
  | Some message => AtBroadcast message
  | None => AtUnregister
  end.

(** Go channel operations. A send needs room in the buffer or a receiver
    waiting; a receive takes the oldest buffered value. *)
Definition chan_has_room {T : Type} (ch : Chan T) : bool :=
  bool_decide (length (chan_buf ch) < chan_cap ch).

Definition chan_push {T : Type} (ch : Chan T) (v : T) : Chan T :=
  MkChan (chan_cap ch) (chan_buf ch ++ [v]).

Definition chan_pop {T : Type} (ch : Chan T) : option (T * Chan T) :=
  match chan_buf ch with
  | [] => None
  | v :: rest => Some (v, MkChan (chan_cap ch) rest)
  end.

(** The three channels of the hub, addressed by the event they carry. *)
Definition hub_has_room (h : Hub) (ev : Event) : bool :=
  match ev with
  | Register _ => chan_has_room (register h)
  | Unregister _ => chan_has_room (unregister h)
  | Broadcast _ => chan_has_room (broadcast h)
  end.

Definition hub_buffered (h : Hub) (ev : Event) : nat :=
  match ev with
  | Register _ => length (chan_buf (register h))
  | Unregister _ => length (chan_buf (unregister h))
  | Broadcast _ => length (chan_buf (broadcast h))
  end.

Definition hub_push (h : Hub) (ev : Event) : Hub :=
  match ev with
  | Register client =>
      MkHub (clients h) (broadcast h) (chan_push (register h) client) (unregister h)
  | Unregister client =>
      MkHub (clients h) (broadcast h) (register h) (chan_push (unregister h) client)
  | Broadcast message =>
      MkHub (clients h) (chan_push (broadcast h) message) (register h) (unregister h)
  end.

(** The cases of the [select] of [run] that a buffered value makes ready. *)
Definition hub_pop (h : Hub) : list (Event * Hub) :=
  match chan_pop (register h) with
  | Some (client, ch) => [(Register client, MkHub (clients h) (broadcast h) ch (unregister h))]
  | None => []
  end ++
  match chan_pop (unregister h) with
  | Some (client, ch) => [(Unregister client, MkHub (clients h) (broadcast h) (register h) ch)]
  | None => []
  end ++
  match chan_pop (broadcast h) with
  | Some (message, ch) => [(Broadcast message, MkHub (clients h) ch (register h) (unregister h))]
  | None => []
  end.

(** The whole program: the state [run] works on, the value [run] has
    received and is handling ([None]: [run] waits at its [select]), and the
    code of [handleWS] per accepted connection. *)
Record Sys := MkSys {
  state : St;
  received : option Event;
  tasks : gmap Conn Pc
}.

(** Who takes a step: the goroutine of [run], or the code of [handleWS]
    for one connection (the HTTP handler up to the [go] statement, the
    reading goroutine after it). *)
Inductive Actor :=
  | Coordinator
  | Handler (conn : Conn).

(** [main]: [hub := newHub(); go hub.run()], no connection yet. *)
Definition init_sys : Sys :=
  {| state := {| hub := newHub; calls := [] |};
     received := None;
     tasks := ∅ |}.

Section Program.

Variable write_err : list Call → Conn → Msg → bool.
Variable range_order : list Call → gmap Conn bool → list Conn.

Inductive step : Sys → Actor → Sys → Prop :=
  (** [handleWS] is called and [Upgrade] returns a connection, one that no
      earlier call has returned. *)
  | step_accept σ conn :
      tasks σ !! conn = None →
      step σ (Handler conn)
        {| state := state σ; received := received σ;
           tasks := <[conn := AtRegister]> (tasks σ) |}
  (** [conn.ReadMessage()] returns. *)
  | step_read σ conn res :
      tasks σ !! conn = Some AtRead →
      step σ (Handler conn)
        {| state := state σ; received := received σ;
           tasks := <[conn := handleWS_read res]> (tasks σ) |}
  (** A send into a buffer that has room. *)
  | step_send_buffered σ conn pc ev pc' :
      tasks σ !! conn = Some pc →
      handleWS_send conn pc = Some (ev, pc') →
      hub_has_room (hub (state σ)) ev = true →
      step σ (Handler conn)
        {| state := {| hub := hub_push (hub (state σ)) ev; calls := calls (state σ) |};
           received := received σ;
           tasks := <[conn := pc']> (tasks σ) |}
  (** A send handed over to [run] waiting at its [select]. *)
  | step_send_direct σ conn pc ev pc' :
      tasks σ !! conn = Some pc →
      handleWS_send conn pc = Some (ev, pc') →
      received σ = None →
      hub_buffered (hub (state σ)) ev = 0 →
      step σ (Handler conn)
        {| state := state σ; received := Some ev;
           tasks := <[conn := pc']> (tasks σ) |}
  (** [run] at its [select] takes a buffered value. *)
  | step_receive_buffered σ ev h' :
      received σ = None →
      (ev, h') ∈ hub_pop (hub (state σ)) →
      step σ Coordinator
        {| state := {| hub := h'; calls := calls (state σ) |};
           received := Some ev; tasks := tasks σ |}
  (** [run] executes the case of the value it received and goes back to
      its [select]. *)
  | step_case σ ev s' :
      received σ = Some ev →
      run_case write_err range_order ev (state σ) = Ok tt s' →
      step σ Coordinator
        {| state := s'; received := None; tasks := tasks σ |}.

Inductive reachable : Sys → Prop :=
  | reachable_init : reachable init_sys
  | reachable_step σ a σ' : reachable σ → step σ a σ' → reachable σ'.

End Program.

(** The three channels are as [newHub] made them: no capacity, nothing
    buffered. *)
Definition unbuffered (h : Hub) : Prop :=
  broadcast h = make_chan ∧ register h = make_chan ∧ unregister h = make_chan.

(** The program with another map in the hub. *)
Definition with_clients (σ : Sys) (cl : GoMap) : Sys :=
  {| state := {| hub := set_clients (hub (state σ)) cl; calls := calls (state σ) |};
     received := received σ;
     tasks := tasks σ |}.

(** ** Observations *)

(** The peers in the map. *)
Definition registry (s : St) : gset Conn :=
  match clients (hub s) with
  | NilMap => ∅
  | Made m => dom m
  end.

Fixpoint count_calls (f : Call → bool) (t : list Call) : nat :=
  match t with
  | [] => 0
  | c :: t' => (if f c then 1 else 0) + count_calls f t'
  end.

Definition is_send (c : Conn) (m : Msg) (call : Call) : bool :=
  match call with
  | CallWriteMessage c' _ m' _ => bool_decide (c' = c ∧ m' = m)
  | _ => false
  end.

Definition is_write (c : Conn) (call : Call) : bool :=
  match call with
  | CallWriteMessage c' _ _ _ => bool_decide (c' = c)
  | _ => false
  end.

Definition is_close (c : Conn) (call : Call) : bool :=
  match call with
  | CallClose c' => bool_decide (c' = c)
  | _ => false
  end.

(** How often [c.WriteMessage(_, m)] was called in [t]. *)
Definition sends (c : Conn) (m : Msg) (t : list Call) : nat :=
  count_calls (is_send c m) t.

(** How often [c.WriteMessage] was called in [t], with any message. *)
Definition writes (c : Conn) (t : list Call) : nat :=
  count_calls (is_write c) t.

(** How often [c.Close()] was called in [t]. *)
Definition closes (c : Conn) (t : list Call) : nat :=
  count_calls (is_close c) t.

(** A send of [m] to [c] in [t] returned an error. *)
Definition send_failed (c : Conn) (m : Msg) (t : list Call) : Prop :=
  CallWriteMessage c TextMessage m true ∈ t.

#[global] Instance send_failed_dec c m t : Decision (send_failed c m t).
Proof. unfold send_failed. apply _. Defined.

(** What the broadcast loop does to the map and which calls it makes, for an
    order without repetition and a message [m]: the calls are [t], the map
    goes from [cl] to [cl']. *)
Definition fanout_post (m : Msg) (order : list Conn)
    (cl cl' : gmap Conn bool) (t : list Call) : Prop :=
  (∀ c, c ∈ order → c ∈ dom cl → sends c m t = 1 ∧ writes c t = 1) ∧
  (∀ c, c ∉ order ∨ c ∉ dom cl → writes c t = 0 ∧ closes c t = 0) ∧
  (∀ c, send_failed c m t → closes c t = 1 ∧ cl' !! c = None) ∧
  (∀ c, ¬ send_failed c m t → closes c t = 0 ∧ cl' !! c = cl !! c).

(** 1 when [c] is in the map, 0 when it is not. *)
Definition live (c : Conn) (s : St) : nat :=
  if decide (c ∈ registry s) then 1 else 0.

(** What one turn of [run] does on a made map [cl]: the map [cl'] it
    leaves and the calls [t] it makes. *)
Definition case_post (ev : Event) (cl cl' : gmap Conn bool) (t : list Call) : Prop :=
  match ev with
  | Register c =>
      cl' = <[c:=true]> cl ∧
      t = [CallPrintf fmt_connected (size cl')]
  | Unregister c =>
      (c ∈ dom cl ∧ cl' = delete c cl ∧
       t = [CallClose c;
            CallPrintf fmt_disconnected (size cl')]) ∨
      ((c ∉ dom cl) ∧ cl' = cl ∧ t = [])
  | Broadcast m =>
      ∃ t', t = CallPrintf fmt_broadcasting (size cl) :: t' ∧
        (∀ c, c ∈ dom cl → sends c m t' = 1 ∧ writes c t' = 1) ∧
        (∀ c, c ∉ dom cl → writes c t' = 0 ∧ closes c t' = 0) ∧
        (∀ c, send_failed c m t' → closes c t' = 1 ∧ c ∈ dom cl ∧ c ∉ dom cl') ∧
        (∀ c, ¬ send_failed c m t' → closes c t' = 0 ∧ cl' !! c = cl !! c)
  end.

(** The channels of the hub hold the same values. *)
Definition same_channels (h h' : Hub) : Prop :=
  broadcast h' = broadcast h ∧ register h' = register h ∧ unregister h' = unregister h.

(** What the latest [Register] or [Unregister] of [p] in [evs] was:
    [Some true] for a [Register], [Some false] for an [Unregister], [None]
    when [evs] has neither. *)
Fixpoint last_op (p : Conn) (evs : list Event) : option bool :=
  match evs with
  | [] => None
  | ev :: rest =>
      match last_op p rest with
      | Some b => Some b
      | None =>
          match ev with
          | Register client => if decide (client = p) then Some true else None
          | Unregister client => if decide (client = p) then Some false else None
          | Broadcast _ => None
          end
      end
  end.

Definition is_membership (ev : Event) : bool :=
  match ev with
  | Register _ | Unregister _ => true
  | Broadcast _ => false
  end.

(** Whether [run] has handled the [Register] of [c]: 1 once the code of
    [handleWS] for [c] is past its send to [h.register] and [run] is not
    still holding that value, 0 before. *)
Definition registered_by_now (σ : Sys) (c : Conn) : nat :=
  match tasks σ !! c with
  | None | Some AtRegister => 0
  | Some _ => if decide (received σ = Some (Register c)) then 0 else 1
  end.

(** What holds of every connection in every state of the program: it is
    in the map or closed once, never both, from the moment [run] has
    handled its [Register]; the [Register] and the [Unregister] of [c] are
    only ever sent by the code of [handleWS] for [c], at its two ends; and
    once its [Unregister] is handled the connection is out of the map. *)
Definition closes_inv (σ : Sys) : Prop :=
  (∃ cl, clients (hub (state σ)) = Made cl) ∧
  ∀ c,
    closes c (calls (state σ)) + live c (state σ) = registered_by_now σ c ∧
    (received σ = Some (Register c) →
       ∃ pc, tasks σ !! c = Some pc ∧ pc ≠ AtRegister ∧ pc ≠ Exited) ∧
    (received σ = Some (Unregister c) → tasks σ !! c = Some Exited) ∧
    (tasks σ !! c = Some Exited → received σ ≠ Some (Unregister c) →
       c ∉ registry (state σ)).

(** Concrete worlds for the examples. *)
Definition never_fails : list Call → Conn → Msg → bool := λ _ _ _, false.
Definition fails_for (bad : Conn) : list Call → Conn → Msg → bool :=
  λ _ c _, bool_decide (c = bad).
Definition canonical_order : list Call → gmap Conn bool → list Conn :=
  λ _ m, map_keys m.
Definition reverse_order : list Call → gmap Conn bool → list Conn :=
  λ _ m, reverse (map_keys m).

Definition hello : list byte := [x68; x65; x6c; x6c; x6f].
Definition world : list byte := [x77; x6f; x72; x6c; x64].
Definition peerA : positive := 1.
Definition peerB : positive := 2.
Definition peerC : positive := 3.

(** [handleWS] has been called once and is at its send to [h.register]. *)
Definition accepted_example : Sys :=
  {| state := state init_sys;
     received := received init_sys;
     tasks := <[peerA := AtRegister]> (tasks init_sys) |}.

(** [run] has received the [Register] of A and is in its case; [handleWS]
    has been called for B and is at its send to [h.register]. *)
Definition busy_example : Sys :=
  {| state := state init_sys;
     received := Some (Register peerA);
     tasks := <[peerB := AtRegister]> (<[peerA := AtRead]> (tasks accepted_example)) |}.

(** [handleWS] has been called for A and [run] has registered A. *)
Definition registered_example : Sys :=
  {| state := {| hub := set_clients newHub (Made {[peerA := true]});
                 calls := [CallPrintf fmt_connected 1] |};
     received := None;
     tasks := <[peerA := AtRead]> (tasks accepted_example) |}.

(** The program after one connection has come and gone: after
    [registered_example], [ReadMessage] fails on A, the deferred send hands
    over the [Unregister] of A and [run] has handled it. *)
Definition closed_example : Sys :=
  {| state := {| hub := newHub;
                 calls := [CallPrintf fmt_connected 1; CallClose peerA;
                           CallPrintf fmt_disconnected 0] |};
     received := None;
     tasks := <[peerA := Exited]>
                (<[peerA := handleWS_read None]> (tasks registered_example)) |}.

(** A state with the peers [cs] in the map and no call made yet. *)
Definition hub_with (cs : list Conn) : St :=
  {| hub := set_clients newHub (Made (list_to_map ((λ c, (c, true)) <$> cs)));
     calls := [] |}.

(** ** The broadcast loop as a function *)

(** The calls one turn of the broadcast loop makes on [k]: the write, and
    the close when the write returned an error. *)
Definition write_calls (k : Conn) (m : Msg) (err : bool) : list Call :=
  CallWriteMessage k TextMessage m err :: (if err then [CallClose k] else []).

(** The map the broadcast loop leaves and the calls it makes, when it runs
    over [order] on the map [cl] after the calls [t0]. *)
Fixpoint fanout (write_err : list Call → Conn → Msg → bool) (m : Msg)
    (order : list Conn) (t0 : list Call) (cl : gmap Conn bool) :
    gmap Conn bool * list Call :=
  match order with
  | [] => (cl, [])
  | k :: rest =>
      match cl !! k with
      | None => fanout write_err m rest t0 cl
      | Some _ =>
          let err := write_err t0 k m in
          let r := fanout write_err m rest (t0 ++ write_calls k m err)
                     (if err then delete k cl else cl) in
          (r.1, write_calls k m err ++ r.2)
      end
  end.

(** Counting calls of one kind, on whatever connection. *)
Definition is_any_write (call : Call) : bool :=
  match call with CallWriteMessage _ _ _ _ => true | _ => false end.

Definition is_any_close (call : Call) : bool :=
  match call with CallClose _ => true | _ => false end.

Definition is_printf (call : Call) : bool :=
  match call with CallPrintf _ _ => true | _ => false end.

(** After a [Close] of [c] in [t] there is no further call on [c]. *)
Fixpoint quiet_after_close (c : Conn) (t : list Call) : Prop :=
  match t with
  | [] => True
  | call :: t' =>
      (is_close c call = true → writes c t' = 0 ∧ closes c t' = 0) ∧
      quiet_after_close c t'
  end.

(** The entry of [p] after [run] has handled the [Register] and
    [Unregister] events [evs], when it was [old] before. *)
Definition entry_after (p : Conn) (evs : list Event) (old : option bool) : option bool :=
  match last_op p evs with
  | Some true => Some true
  | Some false => None
  | None => old
  end.

(** How far the code of [handleWS] for a connection has come. Reading and
    sending a message alternate, so they rank the same. *)
Definition pc_rank (pc : option Pc) : nat :=
  match pc with
  | None => 0
  | Some AtRegister => 1
  | Some AtRead | Some (AtBroadcast _) => 2
  | Some AtUnregister => 3
  | Some Exited => 4
  end.

Section Runs.

Variable write_err : list Call → Conn → Msg → bool.
Variable range_order : list Call → gmap Conn bool → list Conn.

(** Any number of steps of the program. *)
Inductive steps : Sys → Sys → Prop :=
  | steps_refl σ : steps σ σ
  | steps_step σ a σ' σ'' :
      step write_err range_order σ a σ' → steps σ' σ'' → steps σ σ''.

End Runs.

(** The message a step reads, if it is a step in which [ReadMessage]
    returns a message: the code of [handleWS] for the connection goes from
    its read to the send of that message. *)
Definition read_of (σ σ' : Sys) (a : Actor) : list Msg :=
  match a with
  | Handler conn =>
      match tasks σ !! conn, tasks σ' !! conn with
      | Some AtRead, Some (AtBroadcast message) => [message]
      | _, _ => []
      end
  | Coordinator => []
  end.

Section Reading.

Variable write_err : list Call → Conn → Msg → bool.
Variable range_order : list Call → gmap Conn bool → list Conn.

(** The states the program reaches, with the messages read on the way,
    oldest first. *)
Inductive reachable_reading : Sys → list Msg → Prop :=
  | reading_init : reachable_reading init_sys []
  | reading_step σ ms a σ' :
      reachable_reading σ ms →
      step write_err range_order σ a σ' →
      reachable_reading σ' (ms ++ read_of σ σ' a).

End Reading.

(** After [registered_example]: [ReadMessage] returns a message on A, its
    goroutine hands it to [run], and [run] has broadcast it. *)
Definition reading_example : Sys :=
  {| state := state registered_example;
     received := received registered_example;
     tasks := <[peerA := handleWS_read (Some hello)]> (tasks registered_example) |}.

Definition sent_example : Sys :=
  {| state := state registered_example;
     received := Some (Broadcast hello);
     tasks := <[peerA := AtRead]> (tasks reading_example) |}.

Definition delivered_example : Sys :=
  {| state := {| hub := hub (state registered_example);
                 calls := [CallPrintf fmt_connected 1;
                           CallPrintf fmt_broadcasting 1;
                           CallWriteMessage peerA TextMessage hello false] |};
     received := None;
     tasks := tasks sent_example |}.

(** * Properties *)

(** ** Counting calls *)

Lemma count_calls_app f t1 t2 :
  count_calls f (t1 ++ t2) = count_calls f t1 + count_calls f t2.
Proof. induction t1 as [|c t1 IH]; simpl; [done|]. rewrite IH. lia. Qed.

Lemma sends_le_writes c m t : sends c m t ≤ writes c t.
Proof.
  unfold sends, writes. induction t as [|call t IH]; simpl; [done|].
  destruct call as [c' mt m' e| |]; simpl; try lia.
  repeat case_bool_decide; simpl; first [lia | naive_solver].
Qed.

Lemma send_failed_writes c m t : send_failed c m t → 0 < writes c t.
Proof.
  unfold send_failed, writes. induction t as [|call t IH]; intros H.
  - by apply elem_of_nil in H.
  - apply elem_of_cons in H as [<-|H]; simpl.
    + rewrite bool_decide_true; [lia|done].
    + specialize (IH H). lia.
Qed.

(** ** The cases of [run], one by one *)

Ltac msimpl := unfold mbind, M_bind, mret, M_ret; simpl.

Section CoordinatorFacts.

Variable write_err : list Call → Conn → Msg → bool.
Variable range_order : list Call → gmap Conn bool → list Conn.

Local Abbreviation run_case := (run_case write_err range_order).
Local Abbreviation run := (run write_err range_order).
Local Abbreviation broadcast_body := (broadcast_body write_err).

Lemma run_case_register s cl c :
  clients (hub s) = Made cl →
  run_case (Register c) s =
    Ok tt {| hub := set_clients (hub s) (Made (<[c:=true]> cl));
             calls := calls s ++
               [CallPrintf fmt_connected (size (<[c:=true]> cl))] |}.
Proof.
  intros Hcl. unfold run_case. msimpl.
  unfold map_assign. rewrite Hcl. reflexivity.
Qed.

Lemma run_case_register_nil s c :
  clients (hub s) = NilMap →
  run_case (Register c) s = Panic "assignment to entry in nil map".
Proof.
  intros Hcl. unfold run_case. msimpl. unfold map_assign. by rewrite Hcl.
Qed.

Lemma run_case_unregister_present s cl c v :
  clients (hub s) = Made cl →
  cl !! c = Some v →
  run_case (Unregister c) s =
    Ok tt {| hub := set_clients (hub s) (Made (delete c cl));
             calls := calls s ++
               [CallClose c;
                CallPrintf fmt_disconnected (size (delete c cl))] |}.
Proof.
  intros Hcl Hc. unfold run_case. msimpl.
  unfold map_lookup. rewrite Hcl, Hc. simpl.
  unfold map_delete. rewrite Hcl. simpl.
  unfold Printf, log. simpl. by rewrite <- app_assoc.
Qed.

Lemma run_case_unregister_absent s c :
  c ∉ registry s →
  run_case (Unregister c) s = Ok tt s.
Proof.
  unfold registry. intros Hc. unfold run_case. msimpl. unfold map_lookup.
  destruct (clients (hub s)) as [|cl]; [done|].
  apply not_elem_of_dom in Hc. by rewrite Hc.
Qed.

Lemma registry_made s cl : clients (hub s) = Made cl → registry s = dom cl.
Proof. unfold registry. by intros ->. Qed.


(** *** The broadcast loop *)

Lemma broadcast_body_ok m k s :
  write_err (calls s) k m = false →
  broadcast_body m k s =
    Ok tt {| hub := hub s;
             calls := calls s ++ [CallWriteMessage k TextMessage m false] |}.
Proof. intros He. unfold broadcast_body, WriteMessage. msimpl. by rewrite He. Qed.

Lemma broadcast_body_err m k s cl :
  clients (hub s) = Made cl →
  write_err (calls s) k m = true →
  broadcast_body m k s =
    Ok tt {| hub := set_clients (hub s) (Made (delete k cl));
             calls := calls s ++ [CallWriteMessage k TextMessage m true; CallClose k] |}.
Proof.
  intros Hcl He. unfold broadcast_body, WriteMessage. msimpl. rewrite He. simpl.
  unfold map_delete. simpl. rewrite Hcl. by rewrite <- app_assoc.
Qed.

Lemma range_loop_cons k rest body s :
  range_loop (k :: rest) body s =
    match clients (hub s) with
    | Made cl =>
        match cl !! k with
        | Some _ =>
            match body k s with
            | Ok _ s' => range_loop rest body s'
            | Panic why => Panic why
            end
        | None => range_loop rest body s
        end
    | NilMap => range_loop rest body s
    end.
Proof.
  simpl. msimpl. unfold map_lookup.
  destruct (clients (hub s)) as [|cl]; [done|].
  by destruct (cl !! k) as [v|].
Qed.

Lemma state_eta s cl :
  clients (hub s) = Made cl →
  s = {| hub := set_clients (hub s) (Made cl); calls := calls s ++ [] |}.
Proof.
  destruct s as [[c b r u] t]. simpl. intros ->.
  rewrite app_nil_r. reflexivity.
Qed.

Lemma send_failed_cons_write c m k e t :
  send_failed c m (CallWriteMessage k TextMessage m e :: t) ↔
  (k = c ∧ e = true) ∨ send_failed c m t.
Proof.
  unfold send_failed. rewrite elem_of_cons. split.
  - intros [Heq|H]; [left|by right]. by inversion Heq.
  - intros [[-> ->]|H]; [by left|by right].
Qed.

Lemma send_failed_cons_close c m k t :
  send_failed c m (CallClose k :: t) ↔ send_failed c m t.
Proof.
  unfold send_failed. rewrite elem_of_cons. split; [|by right].
  by intros [Heq|H].
Qed.

Lemma send_failed_cons_printf c m format n t :
  send_failed c m (CallPrintf format n :: t) ↔ send_failed c m t.
Proof.
  unfold send_failed. rewrite elem_of_cons. split; [|by right].
  by intros [Heq|H].
Qed.

Lemma send_failed_nil c m : ¬ send_failed c m [].
Proof. unfold send_failed. apply not_elem_of_nil. Qed.

Lemma dom_delete_in (c k : Conn) (cl : gmap Conn bool) :
  c ≠ k → c ∈ dom cl → c ∈ dom (delete k cl).
Proof. rewrite dom_delete. set_solver. Qed.

Lemma dom_delete_notin (c k : Conn) (cl : gmap Conn bool) :
  c ∉ dom cl → c ∉ dom (delete k cl).
Proof.
  intros Hc [v Hv]%elem_of_dom. apply lookup_delete_Some in Hv as [_ Hv].
  apply Hc, elem_of_dom. eauto.
Qed.

Lemma not_in_tail (c k : Conn) (rest : list Conn) :
  c ∉ k :: rest → c ∉ rest.
Proof. intros Hc Hin. apply Hc. by right. Qed.

Lemma not_head_or (c k : Conn) (rest : list Conn) (X : gset Conn) :
  k ∈ X → c ∉ k :: rest ∨ c ∉ X → c ≠ k.
Proof. intros Hk [Hc|Hc] ->; [apply Hc; by left|done]. Qed.

Lemma sends_cons c m call t :
  sends c m (call :: t) = (if is_send c m call then 1 else 0) + sends c m t.
Proof. reflexivity. Qed.

Lemma writes_cons c call t :
  writes c (call :: t) = (if is_write c call then 1 else 0) + writes c t.
Proof. reflexivity. Qed.

Lemma closes_cons c call t :
  closes c (call :: t) = (if is_close c call then 1 else 0) + closes c t.
Proof. reflexivity. Qed.

Lemma closes_nil c : closes c [] = 0.
Proof. reflexivity. Qed.

Ltac count_head :=
  rewrite ?sends_cons, ?writes_cons, ?closes_cons;
  simpl is_send; simpl is_write; simpl is_close;
  repeat case_bool_decide; first [lia | intuition congruence].

Lemma range_loop_broadcast m order : ∀ s cl,
  clients (hub s) = Made cl →
  NoDup order →
  ∃ cl' t,
    range_loop order (broadcast_body m) s =
      Ok tt {| hub := set_clients (hub s) (Made cl'); calls := calls s ++ t |} ∧
    fanout_post m order cl cl' t.
Proof.
  induction order as [|k rest IH]; intros s cl Hcl Hnd.
  - exists cl, []. split.
    + simpl. msimpl. f_equal. by apply state_eta.
    + split; [|split; [|split]].
      * by intros c ?%elem_of_nil.
      * done.
      * by intros c ?%send_failed_nil.
      * done.
  - apply NoDup_cons in Hnd as [Hk Hnd].
    rewrite range_loop_cons, Hcl.
    destruct (cl !! k) as [v|] eqn:Hlk.
    + assert (Hkd : k ∈ dom cl) by (apply elem_of_dom; eauto).
      destruct (write_err (calls s) k m) eqn:He.
      * rewrite (broadcast_body_err _ _ _ _ Hcl He).
        destruct (IH {| hub := set_clients (hub s) (Made (delete k cl));
                         calls := calls s ++ [CallWriteMessage k TextMessage m true; CallClose k] |}
                      (delete k cl) eq_refl Hnd)
          as (cl' & t & Hrun & H1 & H2 & H3 & H4).
        exists cl', ([CallWriteMessage k TextMessage m true; CallClose k] ++ t).
        split; [rewrite Hrun; simpl; by rewrite <- app_assoc|].
        destruct (H2 k (or_introl Hk)) as [Hwk Hck].
        assert (Hsk : sends k m t = 0) by (pose proof (sends_le_writes k m t); lia).
        assert (Hfk : ¬ send_failed k m t)
          by (intros Hf%send_failed_writes; lia).
        simpl app.
        split; [|split; [|split]].
        -- intros c Hin Hd. destruct (decide (c = k)) as [->|Hne].
           ++ split; count_head.
           ++ apply elem_of_cons in Hin as [?|Hin]; [done|].
              destruct (H1 c Hin) as [Hs Hw]; [by apply dom_delete_in|].
              split; count_head.
        -- intros c Hc.
           assert (Hne : c ≠ k) by (by eapply not_head_or).
           destruct (H2 c) as [Hw Hcl0].
           { destruct Hc as [Hc|Hc]; [left; by eapply not_in_tail|right; by apply dom_delete_notin]. }
           split; count_head.
        -- intros c Hf. apply send_failed_cons_write in Hf.
           rewrite send_failed_cons_close in Hf.
           destruct (decide (c = k)) as [->|Hne].
           ++ split; [count_head|].
              destruct (H4 k Hfk) as [_ ->]. apply lookup_delete_eq.
           ++ destruct Hf as [[? _]|Hf]; [done|].
              destruct (H3 c Hf) as [Hc Hl]. split; [count_head|done].
        -- intros c Hnf.
           assert (Hne : c ≠ k).
           { intros ->. apply Hnf. apply send_failed_cons_write. by left. }
           assert (Hf : ¬ send_failed c m t).
           { intros Hf. apply Hnf. apply send_failed_cons_write. right.
             by apply send_failed_cons_close. }
           destruct (H4 c Hf) as [Hc ->].
           split; [count_head|by apply lookup_delete_ne].
      * rewrite (broadcast_body_ok _ _ _ He).
        destruct (IH {| hub := hub s;
                         calls := calls s ++ [CallWriteMessage k TextMessage m false] |}
                      cl Hcl Hnd)
          as (cl' & t & Hrun & H1 & H2 & H3 & H4).
        exists cl', ([CallWriteMessage k TextMessage m false] ++ t).
        split; [rewrite Hrun; simpl; by rewrite <- app_assoc|].
        destruct (H2 k (or_introl Hk)) as [Hwk Hck].
        assert (Hsk : sends k m t = 0) by (pose proof (sends_le_writes k m t); lia).
        assert (Hfk : ¬ send_failed k m t)
          by (intros Hf%send_failed_writes; lia).
        simpl app.
        split; [|split; [|split]].
        -- intros c Hin Hd. destruct (decide (c = k)) as [->|Hne].
           ++ split; count_head.
           ++ apply elem_of_cons in Hin as [?|Hin]; [done|].
              destruct (H1 c Hin Hd) as [Hs Hw].
              split; count_head.
        -- intros c Hc.
           assert (Hne : c ≠ k) by (by eapply not_head_or).
           destruct (H2 c) as [Hw Hcl0].
           { destruct Hc as [Hc|Hc]; [left; by eapply not_in_tail|by right]. }
           split; count_head.
        -- intros c Hf. apply send_failed_cons_write in Hf.
           destruct Hf as [[_ ?]|Hf]; [done|].
           destruct (H3 c Hf) as [Hc Hl]. split; [count_head|done].
        -- intros c Hnf.
           assert (Hf : ¬ send_failed c m t).
           { intros Hf. apply Hnf. apply send_failed_cons_write. by right. }
           destruct (H4 c Hf) as [Hc Hl]. split; [count_head|done].
    + assert (Hkd : k ∉ dom cl) by (by apply not_elem_of_dom).
      destruct (IH s cl Hcl Hnd) as (cl' & t & Hrun & H1 & H2 & H3 & H4).
      exists cl', t. split; [done|].
      split; [|split; [|split]]; [| |done|done].
      * intros c Hin Hd.
        apply elem_of_cons in Hin as [->|Hin]; [done|]. by apply H1.
      * intros c Hc.
        destruct (decide (c = k)) as [->|Hne]; [by apply H2; right|].
        apply H2. destruct Hc as [Hc|Hc]; [left; by eapply not_in_tail|by right].
Qed.

(** *** The broadcast case as a whole *)

Lemma range_ok_NoDup t cl :
  range_ok range_order → NoDup (range_order t cl).
Proof.
  intros Hok. rewrite (Hok t cl). unfold map_keys. apply NoDup_fst_map_to_list.
Qed.

Lemma range_ok_elem_of t cl c :
  range_ok range_order → c ∈ range_order t cl ↔ c ∈ dom cl.
Proof.
  intros Hok. rewrite (Hok t cl). unfold map_keys.
  rewrite elem_of_dom, list_elem_of_fmap. split.
  - intros [[k v] [-> Hin]]. apply elem_of_map_to_list in Hin. eauto.
  - intros [v Hv]. exists (c, v). split; [done|]. by apply elem_of_map_to_list.
Qed.

Lemma run_case_broadcast s cl m :
  range_ok range_order →
  clients (hub s) = Made cl →
  ∃ cl' t,
    run_case (Broadcast m) s =
      Ok tt {| hub := set_clients (hub s) (Made cl');
               calls := calls s ++
                 CallPrintf fmt_broadcasting (size cl) :: t |} ∧
    (∀ c, c ∈ dom cl → sends c m t = 1 ∧ writes c t = 1) ∧
    (∀ c, c ∉ dom cl → writes c t = 0 ∧ closes c t = 0) ∧
    (∀ c, send_failed c m t → closes c t = 1 ∧ c ∈ dom cl ∧ c ∉ dom cl') ∧
    (∀ c, ¬ send_failed c m t → closes c t = 0 ∧ cl' !! c = cl !! c).
Proof.
  intros Hok Hcl.
  set (s1 := {| hub := hub s;
                calls := calls s ++
                  [CallPrintf fmt_broadcasting (size cl)] |}).
  destruct (range_loop_broadcast m (range_order (calls s1) cl) s1 cl Hcl)
    as (cl' & t & Hrun & H1 & H2 & H3 & H4); [by apply range_ok_NoDup|].
  exists cl', t. split; [|split; [|split; [|split]]].
  - unfold run_case. msimpl. unfold map_len. rewrite Hcl. simpl.
    unfold map_range. simpl. rewrite Hcl.
    subst s1. simpl in Hrun. rewrite Hrun. by rewrite <- app_assoc.
  - intros c Hc. apply H1; [|done]. by apply range_ok_elem_of.
  - intros c Hc. apply H2. by right.
  - intros c Hf. destruct (H3 c Hf) as [Hc Hl]. split; [done|]. split.
    + destruct (decide (c ∈ dom cl)) as [|Hn]; [done|].
      destruct (H2 c (or_intror Hn)) as [Hw _].
      apply send_failed_writes in Hf. lia.
    + by apply not_elem_of_dom.
  - done.
Qed.

End CoordinatorFacts.

Lemma run_cons write_err range_order ev rest s :
  run write_err range_order (ev :: rest) s =
    match run_case write_err range_order ev s with
    | Ok _ s' => run write_err range_order rest s'
    | Panic why => Panic why
    end.
Proof. reflexivity. Qed.

Lemma run_nil write_err range_order s :
  run write_err range_order [] s = Ok tt s.
Proof. reflexivity. Qed.

Section Sequences.

Variable write_err : list Call → Conn → Msg → bool.
Variable range_order : list Call → gmap Conn bool → list Conn.
Hypothesis range_order_ok : range_ok range_order.

Local Abbreviation run_case := (run_case write_err range_order).
Local Abbreviation run := (run write_err range_order).

(** On a made map every turn of [run] returns, with a made map. *)
Lemma run_case_spec ev s cl :
  clients (hub s) = Made cl →
  ∃ cl' t,
    run_case ev s =
      Ok tt {| hub := set_clients (hub s) (Made cl'); calls := calls s ++ t |} ∧
    case_post ev cl cl' t.
Proof.
  intros Hcl. destruct ev as [c|c|m].
  - eexists _, _. split; [by apply run_case_register|]. by split.
  - destruct (cl !! c) as [v|] eqn:Hc.
    + eexists _, _. split; [by eapply run_case_unregister_present|].
      left. split; [by apply elem_of_dom|by split].
    + exists cl, []. split.
      * rewrite run_case_unregister_absent.
        -- f_equal. by apply state_eta.
        -- rewrite (registry_made _ _ Hcl). by apply not_elem_of_dom.
      * right. split; [by apply not_elem_of_dom|by split].
  - destruct (run_case_broadcast write_err range_order s cl m range_order_ok Hcl)
      as (cl' & t & Hrun & H).
    eexists _, _. split; [exact Hrun|]. by exists t.
Qed.

Lemma run_app evs1 evs2 s :
  run (evs1 ++ evs2) s =
    match run evs1 s with
    | Ok _ s' => run evs2 s'
    | Panic why => Panic why
    end.
Proof.
  revert s. induction evs1 as [|ev evs1 IH]; intros s; [done|].
  simpl app. rewrite !run_cons. destruct (run_case ev s); [apply IH|done].
Qed.

(** A connection is closed when, and only when, it leaves the map: the
    number of its [Close] calls plus its presence in the map changes only
    when it is registered. *)
Lemma run_case_conserves A ev s cl :
  clients (hub s) = Made cl →
  ev ≠ Register A →
  ∃ s' cl' t,
    run_case ev s = Ok tt s' ∧
    clients (hub s') = Made cl' ∧
    calls s' = calls s ++ t ∧
    closes A (calls s') + live A s' = closes A (calls s) + live A s.
Proof.
  intros Hcl Hev.
  destruct (run_case_spec ev s cl Hcl) as (cl' & t & Hrun & Hpost).
  eexists _, cl', t. split; [exact Hrun|]. split; [done|]. split; [done|].
  unfold live, registry, closes. simpl. rewrite Hcl, count_calls_app.
  fold (closes A (calls s)) (closes A t).
  destruct ev as [c|c|m]; simpl in Hpost.
  - destruct Hpost as [-> ->]. assert (c ≠ A) by congruence.
    rewrite closes_cons, closes_nil. simpl.
    assert (Hiff : A ∈ dom (<[c:=true]> cl) ↔ A ∈ dom cl)
      by (by rewrite !elem_of_dom, lookup_insert_ne).
    destruct (decide (A ∈ dom cl)) as [HA|HA].
    * rewrite decide_True by (by apply Hiff). lia.
    * rewrite decide_False by (by rewrite Hiff). lia.
  - destruct Hpost as [(Hin & -> & ->)|(Hout & -> & ->)];
      [|rewrite closes_nil; lia].
    rewrite !closes_cons, closes_nil. simpl. case_bool_decide as Hc.
    + subst c. rewrite decide_False by (apply not_elem_of_dom, lookup_delete_eq).
      rewrite decide_True by done. simpl. lia.
    + simpl. destruct (decide (A ∈ dom cl)) as [HA|HA].
      * rewrite decide_True by (by apply dom_delete_in). lia.
      * rewrite decide_False by (by apply dom_delete_notin). lia.
  - destruct Hpost as (t' & -> & _ & _ & H3 & H4).
    rewrite closes_cons. simpl.
    destruct (decide (send_failed A m t')) as [Hf|Hf].
    + destruct (H3 A Hf) as (-> & Hin & Hout).
      rewrite decide_False by done. rewrite decide_True by done. lia.
    + destruct (H4 A Hf) as (-> & Hl).
      destruct (decide (A ∈ dom cl)) as [HA|HA].
      * rewrite decide_True; [lia|]. apply elem_of_dom. rewrite Hl.
        by apply elem_of_dom.
      * rewrite decide_False; [lia|]. intros HA'. apply HA.
        apply elem_of_dom. rewrite <- Hl. by apply elem_of_dom.
Qed.

Lemma run_conserves A evs : ∀ s cl,
  clients (hub s) = Made cl →
  Register A ∉ evs →
  ∃ s' cl' t,
    run evs s = Ok tt s' ∧
    clients (hub s') = Made cl' ∧
    calls s' = calls s ++ t ∧
    closes A (calls s') + live A s' = closes A (calls s) + live A s.
Proof.
  induction evs as [|ev evs IH]; intros s cl Hcl Hno.
  - exists s, cl, []. rewrite run_nil, app_nil_r. by repeat split.
  - apply not_elem_of_cons in Hno as [Hev Hno].
    destruct (run_case_conserves A ev s cl Hcl) as (s1 & cl1 & t1 & Hrun1 & Hcl1 & Ht1 & Hc1);
      [congruence|].
    destruct (IH s1 cl1 Hcl1 Hno) as (s' & cl' & t & Hrun & Hcl' & Ht & Hc).
    exists s', cl', (t1 ++ t). rewrite run_cons, Hrun1.
    split; [done|]. split; [done|]. split; [|lia].
    by rewrite Ht, Ht1, app_assoc.
Qed.

(** A connection that is not in the map is not closed and stays out of
    the map as long as it is not registered. *)
Lemma run_absent A evs s cl :
  clients (hub s) = Made cl →
  Register A ∉ evs →
  A ∉ registry s →
  ∃ s' cl',
    run evs s = Ok tt s' ∧
    clients (hub s') = Made cl' ∧
    closes A (calls s') = closes A (calls s) ∧
    A ∉ registry s'.
Proof.
  intros Hcl Hno Hout.
  destruct (run_conserves A evs s cl Hcl Hno) as (s' & cl' & t & Hrun & Hcl' & Ht & Hc).
  exists s', cl'. split; [done|]. split; [done|].
  revert Hc. unfold live. rewrite Ht. unfold closes at 1. rewrite count_calls_app.
  fold (closes A (calls s)) (closes A t).
  rewrite (decide_False _ _ Hout).
  destruct (decide (A ∈ registry s')) as [Hin|Hin]; intros Hc.
  - lia.
  - split; [|done]. unfold closes at 1. rewrite count_calls_app.
    fold (closes A (calls s)) (closes A t). lia.
Qed.

(** A peer in the map was in it before or has been registered. *)
Lemma run_case_origin q ev (cl cl' : gmap Conn bool) t :
  case_post ev cl cl' t →
  q ∈ dom cl' → q ∈ dom cl ∨ ev = Register q.
Proof.
  destruct ev as [c|c|m]; simpl.
  - intros [-> _] [v Hv]%elem_of_dom.
    destruct (decide (c = q)) as [->|Hne]; [by right|left].
    rewrite lookup_insert_ne in Hv by done. apply elem_of_dom. eauto.
  - intros [(_ & -> & _)|(_ & -> & _)] Hq; [|by left].
    left. apply elem_of_dom in Hq as [v Hv].
    apply lookup_delete_Some in Hv as [_ Hv]. apply elem_of_dom. eauto.
  - intros (t' & _ & _ & _ & H3 & H4) Hq. left.
    destruct (decide (send_failed q m t')) as [Hf|Hf].
    + by destruct (H3 q Hf) as (_ & Hin & _).
    + destruct (H4 q Hf) as [_ Hl]. apply elem_of_dom. rewrite <- Hl.
      by apply elem_of_dom.
Qed.

Lemma run_origin q evs : ∀ s cl,
  clients (hub s) = Made cl →
  ∃ s' cl',
    run evs s = Ok tt s' ∧
    clients (hub s') = Made cl' ∧
    (q ∈ registry s' → q ∈ registry s ∨ Register q ∈ evs).
Proof.
  induction evs as [|ev evs IH]; intros s cl Hcl.
  - exists s, cl. rewrite run_nil. split; [done|]. split; [done|]. by left.
  - destruct (run_case_spec ev s cl Hcl) as (cl1 & t1 & Hrun1 & Hpost).
    destruct (IH {| hub := set_clients (hub s) (Made cl1); calls := calls s ++ t1 |}
                cl1 eq_refl) as (s' & cl' & Hrun & Hcl' & Hq).
    exists s', cl'. rewrite run_cons, Hrun1. split; [done|]. split; [done|].
    intros Hin. destruct (Hq Hin) as [Hq1|Hq1].
    + unfold registry in Hq1. simpl in Hq1.
      destruct (run_case_origin q ev cl cl1 t1 Hpost Hq1) as [Hd| ->].
      * left. by rewrite (registry_made _ _ Hcl).
      * right. by left.
    + right. by right.
Qed.

End Sequences.

(** The two orders of the examples are orders a [range] can take. *)
Lemma range_ok_canonical : range_ok canonical_order.
Proof. intros t m. reflexivity. Qed.

Lemma range_ok_reverse : range_ok reverse_order.
Proof. intros t m. apply reverse_Permutation. Qed.

(** ** One broadcast *)

(** C3: when [run] handles a broadcast of [m], [WriteMessage] is called
    exactly once, with [m], on every peer then in the map, and on no other
    connection. The value a reading goroutine sends for [m] is the same
    whichever connection it read [m] from: the event carries no sender, so
    the peer the message came from gets it like every other registered
    peer. *)
Theorem broadcast_reaches_every_peer_once
    (write_err : list Call → Conn → Msg → bool)
    (range_order : list Call → gmap Conn bool → list Conn)
    (s : St) (cl : gmap Conn bool) (m : Msg) :
  range_ok range_order →
  clients (hub s) = Made cl →
  ∃ s' t,
    run_case write_err range_order (Broadcast m) s = Ok tt s' ∧
    calls s' = calls s ++ t ∧
    (∀ c, c ∈ registry s → sends c m t = 1 ∧ writes c t = 1) ∧
    (∀ c, c ∉ registry s → writes c t = 0) ∧
    (∀ sender, handleWS_send sender (AtBroadcast m) = Some (Broadcast m, AtRead)).
Proof.
  intros Hok Hcl.
  destruct (run_case_broadcast write_err range_order s cl m Hok Hcl)
    as (cl' & t & Hrun & H1 & H2 & _ & _).
  eexists _, (_ :: t). split; [exact Hrun|]. split; [done|].
  rewrite (registry_made _ _ Hcl). split; [|split; [|done]].
  - intros c Hc. destruct (H1 c Hc) as [Hs Hw].
    split; [rewrite sends_cons|rewrite writes_cons]; simpl; lia.
  - intros c Hc. destruct (H2 c Hc) as [Hw _]. rewrite writes_cons. simpl. lia.
Qed.

Lemma broadcast_reaches_every_peer_once_witness :
  ∃ s' t,
    run_case never_fails reverse_order (Broadcast hello)
      (hub_with [peerA; peerB; peerC]) = Ok tt s' ∧
    calls s' = calls (hub_with [peerA; peerB; peerC]) ++ t ∧
    (∀ c, c ∈ registry (hub_with [peerA; peerB; peerC]) →
          sends c hello t = 1 ∧ writes c t = 1) ∧
    (∀ c, c ∉ registry (hub_with [peerA; peerB; peerC]) → writes c t = 0) ∧
    (∀ sender, handleWS_send sender (AtBroadcast hello) = Some (Broadcast hello, AtRead)).
Proof.
  eapply (broadcast_reaches_every_peer_once never_fails reverse_order
            (hub_with [peerA; peerB; peerC]) _ hello).
  - intros t m. apply reverse_Permutation.
  - reflexivity.
Defined.

(** C10: each event touches only the peers it concerns. A [Register] of [p]
    adds [p] and nothing else, an [Unregister] of [p] removes [p] and
    nothing else, and a broadcast removes the peers whose send returned an
    error and no other; none of them touches the channels of the hub. *)
Theorem event_effect_is_framed
    (write_err : list Call → Conn → Msg → bool)
    (range_order : list Call → gmap Conn bool → list Conn)
    (s : St) (cl : gmap Conn bool) :
  range_ok range_order →
  clients (hub s) = Made cl →
  (∀ p, ∃ s',
      run_case write_err range_order (Register p) s = Ok tt s' ∧
      registry s' = {[p]} ∪ registry s ∧
      same_channels (hub s) (hub s')) ∧
  (∀ p, ∃ s',
      run_case write_err range_order (Unregister p) s = Ok tt s' ∧
      registry s' = registry s ∖ {[p]} ∧
      same_channels (hub s) (hub s')) ∧
  (∀ m, ∃ s' t,
      run_case write_err range_order (Broadcast m) s = Ok tt s' ∧
      calls s' = calls s ++ t ∧
      (∀ q, q ∈ registry s' ↔ q ∈ registry s ∧ ¬ send_failed q m t) ∧
      same_channels (hub s) (hub s')).
Proof.
  intros Hok Hcl. rewrite (registry_made _ _ Hcl). split; [|split].
  - intros p. eexists. split; [by apply run_case_register|].
    split; [|done]. unfold registry. simpl. apply dom_insert_L.
  - intros p. destruct (cl !! p) as [v|] eqn:Hp.
    + eexists. split; [by eapply run_case_unregister_present|].
      split; [|done]. unfold registry. simpl. apply dom_delete_L.
    + exists s. split.
      * apply run_case_unregister_absent.
        rewrite (registry_made _ _ Hcl). by apply not_elem_of_dom.
      * split; [|done]. rewrite (registry_made _ _ Hcl).
        apply not_elem_of_dom in Hp.
        symmetry. by apply difference_disjoint_L, disjoint_singleton_r.
  - intros m.
    destruct (run_case_broadcast write_err range_order s cl m Hok Hcl)
      as (cl' & t & Hrun & _ & _ & H3 & H4).
    eexists _, (_ :: t). split; [exact Hrun|]. split; [done|].
    split; [|done]. intros q. unfold registry. simpl.
    rewrite send_failed_cons_printf.
    destruct (decide (send_failed q m t)) as [Hf|Hf].
    + destruct (H3 q Hf) as (_ & _ & Hout). tauto.
    + destruct (H4 q Hf) as [_ Hl]. rewrite !elem_of_dom, Hl. tauto.
Qed.

Lemma event_effect_is_framed_witness :
  (∀ p, ∃ s',
      run_case (fails_for peerB) canonical_order (Register p)
        (hub_with [peerA; peerB; peerC]) = Ok tt s' ∧
      registry s' = {[p]} ∪ registry (hub_with [peerA; peerB; peerC]) ∧
      same_channels (hub (hub_with [peerA; peerB; peerC])) (hub s')) ∧
  (∀ p, ∃ s',
      run_case (fails_for peerB) canonical_order (Unregister p)
        (hub_with [peerA; peerB; peerC]) = Ok tt s' ∧
      registry s' = registry (hub_with [peerA; peerB; peerC]) ∖ {[p]} ∧
      same_channels (hub (hub_with [peerA; peerB; peerC])) (hub s')) ∧
  (∀ m, ∃ s' t,
      run_case (fails_for peerB) canonical_order (Broadcast m)
        (hub_with [peerA; peerB; peerC]) = Ok tt s' ∧
      calls s' = calls (hub_with [peerA; peerB; peerC]) ++ t ∧
      (∀ q, q ∈ registry s' ↔
            q ∈ registry (hub_with [peerA; peerB; peerC]) ∧ ¬ send_failed q m t) ∧
      same_channels (hub (hub_with [peerA; peerB; peerC])) (hub s')).
Proof.
  eapply (event_effect_is_framed (fails_for peerB) canonical_order
            (hub_with [peerA; peerB; peerC])).
  - intros t m. reflexivity.
  - reflexivity.
Defined.

(** C1, as the code has it: a peer whose send returns an error is closed
    and deleted from the map by the broadcast case itself, inside the
    [range] over the live map. The rest of the loop runs on the map
    without that peer; no value is sent to a channel, so no [Unregister]
    event follows from the failure. As only the entry just visited is
    deleted, every peer in the map when the broadcast starts is still
    visited once. *)
Theorem broadcast_failure_deletes_in_loop
    (write_err : list Call → Conn → Msg → bool)
    (range_order : list Call → gmap Conn bool → list Conn)
    (s : St) (cl : gmap Conn bool) (m : Msg) :
  range_ok range_order →
  clients (hub s) = Made cl →
  (∃ s' t,
      run_case write_err range_order (Broadcast m) s = Ok tt s' ∧
      calls s' = calls s ++ t ∧
      same_channels (hub s) (hub s') ∧
      (∀ c, send_failed c m t → closes c t = 1 ∧ c ∉ registry s') ∧
      (∀ c, c ∈ registry s → sends c m t = 1)) ∧
  (∀ k rest, k ∈ dom cl → write_err (calls s) k m = true →
      range_loop (k :: rest) (broadcast_body write_err m) s =
      range_loop rest (broadcast_body write_err m)
        {| hub := set_clients (hub s) (Made (delete k cl));
           calls := calls s ++ [CallWriteMessage k TextMessage m true; CallClose k] |}).
Proof.
  intros Hok Hcl. split.
  - destruct (run_case_broadcast write_err range_order s cl m Hok Hcl)
      as (cl' & t & Hrun & H1 & _ & H3 & _).
    eexists _, (_ :: t). split; [exact Hrun|]. split; [done|]. split; [done|].
    split.
    + intros c Hf. apply send_failed_cons_printf in Hf.
      destruct (H3 c Hf) as (Hc & _ & Hout).
      split; [rewrite closes_cons; simpl; lia|by unfold registry].
    + intros c Hc. rewrite (registry_made _ _ Hcl) in Hc.
      destruct (H1 c Hc) as [Hs _]. rewrite sends_cons. simpl. lia.
  - intros k rest [v Hk]%elem_of_dom He.
    rewrite range_loop_cons, Hcl, Hk.
    by rewrite (broadcast_body_err _ _ _ _ _ Hcl He).
Qed.

Lemma broadcast_failure_deletes_in_loop_witness :
  (∃ s' t,
      run_case (fails_for peerB) canonical_order (Broadcast hello)
        (hub_with [peerA; peerB; peerC]) = Ok tt s' ∧
      calls s' = calls (hub_with [peerA; peerB; peerC]) ++ t ∧
      same_channels (hub (hub_with [peerA; peerB; peerC])) (hub s') ∧
      (∀ c, send_failed c hello t → closes c t = 1 ∧ c ∉ registry s') ∧
      (∀ c, c ∈ registry (hub_with [peerA; peerB; peerC]) → sends c hello t = 1)) ∧
  range_loop [peerB; peerC] (broadcast_body (fails_for peerB) hello)
    (hub_with [peerA; peerB; peerC]) =
  range_loop [peerC] (broadcast_body (fails_for peerB) hello)
    {| hub := hub (hub_with [peerA; peerC]);
       calls := [CallWriteMessage peerB TextMessage hello true; CallClose peerB] |}.
Proof.
  destruct (broadcast_failure_deletes_in_loop (fails_for peerB) canonical_order
              (hub_with [peerA; peerB; peerC]) _ hello
              ltac:(intros t m; reflexivity) eq_refl) as [H1 H2].
  split; [exact H1|].
  rewrite (H2 peerB [peerC]); [reflexivity| |reflexivity].
  apply elem_of_dom. by eexists.
Defined.

(** C1, as the claim has it, fails: with peers A, B and C registered and
    the send to B failing, peer B is out of the map and closed when the
    broadcast case is done, and the [unregister] channel holds nothing. *)
Lemma broadcast_failure_enqueues_nothing :
  ∃ s',
    run_case (fails_for peerB) canonical_order (Broadcast hello)
      (hub_with [peerA; peerB; peerC]) = Ok tt s' ∧
    send_failed peerB hello (calls s') ∧
    (peerB ∉ registry s') ∧
    closes peerB (calls s') = 1 ∧
    chan_buf (unregister (hub s')) = [] ∧
    ¬ (peerB ∈ registry s' ∧ peerB ∈ chan_buf (unregister (hub s'))).
Proof.
  eexists. split; [vm_compute; reflexivity|].
  assert (Hout : peerB ∉ dom (M := gmap positive bool)
                   (list_to_map [(peerA, true); (peerC, true)])).
  { apply not_elem_of_dom. reflexivity. }
  split; [|split; [|split; [|split]]].
  - unfold send_failed. simpl. apply list_elem_of_In. vm_compute. tauto.
  - exact Hout.
  - reflexivity.
  - reflexivity.
  - intros [Hin _]. exact (Hout Hin).
Qed.

(** ** Registering and unregistering *)

(** C7, as the code has it: a [Register] of a peer that is already in the
    map is no fault. The entry is written again with [true], the peers in
    the map stay the same, and the unchanged count is printed. [Register]
    panics only on a nil map, which [newHub] never leaves in the hub. *)
Theorem register_present_overwrites
    (write_err : list Call → Conn → Msg → bool)
    (range_order : list Call → gmap Conn bool → list Conn)
    (s : St) (c : Conn) :
  ((∃ why, run_case write_err range_order (Register c) s = Panic why) ↔
   clients (hub s) = NilMap) ∧
  (∀ cl, clients (hub s) = Made cl → c ∈ registry s →
     ∃ s',
       run_case write_err range_order (Register c) s = Ok tt s' ∧
       clients (hub s') = Made (<[c:=true]> cl) ∧
       registry s' = registry s ∧
       same_channels (hub s) (hub s') ∧
       calls s' = calls s ++
         [CallPrintf fmt_connected (size cl)]).
Proof.
  split.
  - destruct (clients (hub s)) as [|cl] eqn:Hcl.
    + split; [done|]. intros _. eexists. by apply run_case_register_nil.
    + rewrite (run_case_register _ _ _ _ _ Hcl). split; [by intros [? ?]|done].
  - intros cl Hcl Hc. rewrite (registry_made _ _ Hcl) in Hc.
    apply elem_of_dom in Hc as [v Hv].
    eexists. split; [by apply run_case_register|]. simpl.
    split; [done|]. split; [|split; [done|]].
    + rewrite (registry_made _ _ Hcl). unfold registry. simpl.
      rewrite dom_insert_L. apply elem_of_dom_2 in Hv.
      apply subseteq_union_1_L. by apply singleton_subseteq_l.
    + rewrite map_size_insert_Some; [done|by eexists].
Qed.

Lemma register_present_overwrites_witness :
  ∃ s',
    run_case never_fails canonical_order (Register peerA) (hub_with [peerA; peerB]) =
      Ok tt s' ∧
    clients (hub s') = Made (<[peerA:=true]> (list_to_map [(peerA, true); (peerB, true)])) ∧
    registry s' = registry (hub_with [peerA; peerB]) ∧
    same_channels (hub (hub_with [peerA; peerB])) (hub s') ∧
    calls s' = calls (hub_with [peerA; peerB]) ++
      [CallPrintf fmt_connected
         (size (list_to_map [(peerA, true); (peerB, true)] : gmap positive bool))].
Proof.
  apply (proj2 (register_present_overwrites never_fails canonical_order
                  (hub_with [peerA; peerB]) peerA)).
  - reflexivity.
  - apply elem_of_dom. by eexists.
Defined.

(** C7, as the claim has it, fails: registering peer A while A is in the
    map returns normally, with the same peers in the map. *)
Lemma register_present_is_no_fault :
  peerA ∈ registry (hub_with [peerA; peerB]) ∧
  ∃ s',
    run_case never_fails canonical_order (Register peerA) (hub_with [peerA; peerB]) =
      Ok tt s' ∧
    registry s' = registry (hub_with [peerA; peerB]) ∧
    ¬ ∃ why,
        run_case never_fails canonical_order (Register peerA) (hub_with [peerA; peerB]) =
          Panic why.
Proof.
  split; [apply elem_of_dom; by eexists|].
  eexists. split; [vm_compute; reflexivity|]. split.
  - reflexivity.
  - intros [why Hwhy]. vm_compute in Hwhy. discriminate Hwhy.
Qed.

(** C5: unregistering is idempotent. Handling [Unregister p] a second time
    right after the first leaves the whole state as the first left it, so
    twice is the same as once; and when [p] is not in the map, handling
    [Unregister p] changes nothing and makes no call. *)
Theorem unregister_idempotent
    (write_err : list Call → Conn → Msg → bool)
    (range_order : list Call → gmap Conn bool → list Conn)
    (s : St) (p : Conn) :
  (∃ s1,
      run_case write_err range_order (Unregister p) s = Ok tt s1 ∧
      run_case write_err range_order (Unregister p) s1 = Ok tt s1 ∧
      run write_err range_order [Unregister p; Unregister p] s =
        run write_err range_order [Unregister p] s) ∧
  (p ∉ registry s →
     run_case write_err range_order (Unregister p) s = Ok tt s).
Proof.
  assert (Habs : ∀ s0, p ∉ registry s0 →
            run_case write_err range_order (Unregister p) s0 = Ok tt s0)
    by (intros s0; apply run_case_unregister_absent).
  split; [|by apply Habs].
  assert (Hex : ∃ s1, run_case write_err range_order (Unregister p) s = Ok tt s1 ∧
                      p ∉ registry s1).
  { destruct (decide (p ∈ registry s)) as [Hin|Hout].
    - unfold registry in Hin. destruct (clients (hub s)) as [|cl] eqn:Hcl.
      { by apply elem_of_empty in Hin. }
      apply elem_of_dom in Hin as [v Hv].
      eexists. split; [by eapply run_case_unregister_present|].
      unfold registry. simpl. apply not_elem_of_dom, lookup_delete_eq.
    - exists s. split; [by apply Habs|done]. }
  destruct Hex as (s1 & Hrun & Hout).
  exists s1. split; [done|]. split; [by apply Habs|].
  rewrite !run_cons, Hrun. cbv beta iota.
  by rewrite run_cons, (Habs s1 Hout).
Qed.

Lemma unregister_idempotent_witness :
  (peerC ∉ registry (hub_with [peerA; peerB])) ∧
  run_case never_fails canonical_order (Unregister peerC) (hub_with [peerA; peerB]) =
    Ok tt (hub_with [peerA; peerB]).
Proof.
  assert (Hout : peerC ∉ registry (hub_with [peerA; peerB]))
    by (apply not_elem_of_dom; reflexivity).
  split; [exact Hout|].
  exact (proj2 (unregister_idempotent never_fails canonical_order
                  (hub_with [peerA; peerB]) peerC) Hout).
Defined.

(** ** Sequences of events *)

Lemma run_case_membership write_err range_order p ev s cl :
  is_membership ev = true →
  clients (hub s) = Made cl →
  ∃ s' cl',
    run_case write_err range_order ev s = Ok tt s' ∧
    clients (hub s') = Made cl' ∧
    (p ∈ registry s' ↔
       ev = Register p ∨ (ev ≠ Register p ∧ ev ≠ Unregister p ∧ p ∈ registry s)).
Proof.
  intros Hev Hcl. rewrite (registry_made _ _ Hcl).
  destruct ev as [c|c|m]; [| |done].
  - eexists _, _. split; [by apply run_case_register|]. split; [done|].
    unfold registry. simpl. rewrite !elem_of_dom.
    destruct (decide (c = p)) as [->|Hne].
    + rewrite lookup_insert_eq. split; [by left|by eauto].
    + rewrite lookup_insert_ne by done. split.
      * intros Hp. right. split; [congruence|]. split; [done|done].
      * intros [Heq|(_ & _ & Hp)]; [congruence|done].
  - destruct (cl !! c) as [v|] eqn:Hc.
    + eexists _, _. split; [by eapply run_case_unregister_present|]. split; [done|].
      unfold registry. simpl. rewrite !elem_of_dom.
      destruct (decide (c = p)) as [->|Hne].
      * rewrite lookup_delete_eq. split; [by intros [? ?]|].
        intros [?|(_ & Hneq & _)]; done.
      * rewrite lookup_delete_ne by done. split.
        -- intros Hp. right. split; [done|]. split; [congruence|done].
        -- intros [Heq|(_ & _ & Hp)]; [done|done].
    + exists s, cl. split.
      * apply run_case_unregister_absent.
        rewrite (registry_made _ _ Hcl). by apply not_elem_of_dom.
      * split; [done|]. rewrite (registry_made _ _ Hcl), !elem_of_dom. split.
        -- intros Hp. right. split; [done|]. split; [|done].
           intros [= ->]. rewrite Hc in Hp. by destruct Hp.
        -- intros [?|(_ & _ & Hp)]; done.
Qed.

(** C4: after [run] has handled a sequence of [Register] and [Unregister]
    events on a made map, a peer [p] is in the map exactly when the latest
    of these events that names [p] is a [Register], or, when none names
    [p], when [p] was in the map before. From the empty map of [newHub]
    that is: exactly when the latest event on [p] is a [Register]. *)
Theorem registered_iff_last_op_register
    (write_err : list Call → Conn → Msg → bool)
    (range_order : list Call → gmap Conn bool → list Conn)
    (p : Conn) (evs : list Event) (s : St) (cl : gmap Conn bool) :
  forallb is_membership evs = true →
  clients (hub s) = Made cl →
  ∃ s',
    run write_err range_order evs s = Ok tt s' ∧
    (p ∈ registry s' ↔
       last_op p evs = Some true ∨ (last_op p evs = None ∧ p ∈ registry s)) ∧
    (registry s = ∅ → (p ∈ registry s' ↔ last_op p evs = Some true)).
Proof.
  intros Hevs Hcl.
  cut (∃ s', run write_err range_order evs s = Ok tt s' ∧
         (p ∈ registry s' ↔
            last_op p evs = Some true ∨ (last_op p evs = None ∧ p ∈ registry s))).
  { intros (s' & Hrun & Hiff). exists s'. split; [done|]. split; [done|].
    intros Hempty. rewrite Hiff, Hempty. split; [|by left].
    intros [?|[_ Hin]]; [done|]. by apply elem_of_empty in Hin. }
  revert s cl Hevs Hcl. induction evs as [|ev evs IH]; intros s cl Hevs Hcl.
  - exists s. rewrite run_nil. split; [done|]. simpl. split; [by right|].
    by intros [?|[_ ?]].
  - simpl in Hevs. apply andb_true_iff in Hevs as [Hev Hevs].
    destruct (run_case_membership write_err range_order p ev s cl Hev Hcl)
      as (s1 & cl1 & Hrun1 & Hcl1 & Hp1).
    destruct (IH s1 cl1 Hevs Hcl1) as (s' & Hrun & Hp).
    exists s'. rewrite run_cons, Hrun1. split; [done|].
    rewrite Hp, Hp1. simpl.
    destruct (last_op p evs) as [[|]|]; [by split; [left|left]| |].
    + split; intros [?|[? _]]; done.
    + destruct ev as [c|c|m]; [| |done].
      * destruct (decide (c = p)) as [->|Hne].
        -- split; [by left|]. intros _. right. split; [done|by left].
        -- split.
           ++ intros [?|[_ [Heq|(_ & _ & Hin)]]]; [done|congruence|by right].
           ++ intros [?|[_ Hin]]; [done|]. right. split; [done|].
              right. split; [congruence|]. split; [done|done].
      * destruct (decide (c = p)) as [->|Hne].
        -- split.
           ++ intros [?|[_ [?|(_ & Hneq & _)]]]; done.
           ++ intros [?|[? _]]; done.
        -- split.
           ++ intros [?|[_ [?|(_ & _ & Hin)]]]; [done|done|by right].
           ++ intros [?|[_ Hin]]; [done|]. right. split; [done|].
              right. split; [done|]. split; [congruence|done].
Qed.

Lemma registered_iff_last_op_register_witness :
  ∃ s',
    run never_fails canonical_order
      [Register peerA; Register peerB; Unregister peerA; Unregister peerA; Register peerA]
      {| hub := newHub; calls := [] |} = Ok tt s' ∧
    (peerA ∈ registry s' ↔
       last_op peerA
         [Register peerA; Register peerB; Unregister peerA; Unregister peerA; Register peerA]
         = Some true ∨
       (last_op peerA
          [Register peerA; Register peerB; Unregister peerA; Unregister peerA; Register peerA]
          = None ∧ peerA ∈ registry {| hub := newHub; calls := [] |})) ∧
    (registry {| hub := newHub; calls := [] |} = ∅ →
     (peerA ∈ registry s' ↔
        last_op peerA
          [Register peerA; Register peerB; Unregister peerA; Unregister peerA; Register peerA]
          = Some true)).
Proof.
  eapply (registered_iff_last_op_register never_fails canonical_order peerA
            [Register peerA; Register peerB; Unregister peerA; Unregister peerA; Register peerA]
            {| hub := newHub; calls := [] |}).
  - reflexivity.
  - reflexivity.
Defined.

(** Take any events in which [A], not in the map at first, is registered
    once and unregistered later, with broadcasts, failed sends, other peers
    and further [Unregister A] anywhere around. [run] handles them all,
    [Close] is called on [A] exactly once, [A] is out of the map at the
    end, and the map holds no peer that was not there before or registered
    by another event. A further [Unregister A] finds [A] absent and calls
    nothing. *)
Lemma run_closes_once
    (write_err : list Call → Conn → Msg → bool)
    (range_order : list Call → gmap Conn bool → list Conn)
    (A : Conn) (pre mid post : list Event) (s : St) (cl : gmap Conn bool) :
  range_ok range_order →
  clients (hub s) = Made cl →
  A ∉ registry s →
  Register A ∉ pre → Register A ∉ mid → Register A ∉ post →
  ∃ s',
    run write_err range_order (pre ++ Register A :: mid ++ Unregister A :: post) s =
      Ok tt s' ∧
    closes A (calls s') = closes A (calls s) + 1 ∧
    (A ∉ registry s') ∧
    (∀ q, q ∈ registry s' → q ∈ registry s ∨ Register q ∈ pre ++ mid ++ post) ∧
    run_case write_err range_order (Unregister A) s' = Ok tt s'.
Proof.
  intros Hok Hcl Hout Hpre Hmid Hpost.
  destruct (run_absent write_err range_order Hok A pre s cl Hcl Hpre Hout)
    as (s1 & cl1 & Hrun1 & Hcl1 & Hc1 & Hout1).
  pose proof (run_case_register write_err range_order s1 cl1 A Hcl1) as Hrun2.
  set (s2 := {| hub := set_clients (hub s1) (Made (<[A:=true]> cl1));
                calls := calls s1 ++
                  [CallPrintf fmt_connected
                     (size (<[A:=true]> cl1))] |}) in Hrun2.
  assert (Hc2 : closes A (calls s2) = closes A (calls s)).
  { unfold closes in *. simpl. rewrite count_calls_app. simpl. lia. }
  assert (Hin2 : A ∈ registry s2).
  { unfold registry. simpl. apply elem_of_dom. rewrite lookup_insert_eq. eauto. }
  destruct (run_conserves write_err range_order Hok A mid s2 _ eq_refl Hmid)
    as (s3 & cl3 & t3 & Hrun3 & Hcl3 & _ & Hc3).
  destruct (run_case_conserves write_err range_order Hok A (Unregister A) s3 cl3 Hcl3)
    as (s4 & cl4 & t4 & Hrun4 & Hcl4 & _ & Hc4); [done|].
  assert (Hout4 : A ∉ registry s4).
  { destruct (decide (A ∈ registry s3)) as [Hin3|Hout3].
    - rewrite (registry_made _ _ Hcl3) in Hin3. apply elem_of_dom in Hin3 as [v Hv].
      rewrite (run_case_unregister_present _ _ _ _ _ _ Hcl3 Hv) in Hrun4.
      injection Hrun4 as <-. unfold registry. simpl.
      apply not_elem_of_dom, lookup_delete_eq.
    - rewrite (run_case_unregister_absent _ _ _ _ Hout3) in Hrun4.
      by injection Hrun4 as <-. }
  destruct (run_absent write_err range_order Hok A post s4 cl4 Hcl4 Hpost Hout4)
    as (s5 & cl5 & Hrun5 & Hcl5 & Hc5 & Hout5).
  assert (Hrun : run write_err range_order
                   (pre ++ Register A :: mid ++ Unregister A :: post) s = Ok tt s5).
  { rewrite run_app, Hrun1, run_cons, Hrun2, run_app, Hrun3, run_cons, Hrun4.
    exact Hrun5. }
  exists s5. split; [exact Hrun|]. split; [|split; [done|split]].
  - revert Hc3 Hc4. unfold live.
    rewrite (decide_True _ _ Hin2), (decide_False _ _ Hout4). lia.
  - intros q Hq.
    destruct (run_origin write_err range_order Hok q
                (pre ++ Register A :: mid ++ Unregister A :: post) s cl Hcl)
      as (s' & _ & Hrun' & _ & Horigin).
    rewrite Hrun in Hrun'. injection Hrun' as <-.
    destruct (Horigin Hq) as [?|Hreg]; [by left|right].
    rewrite !elem_of_app in *. rewrite !elem_of_cons, elem_of_app, elem_of_cons in Hreg.
    destruct Hreg as [?|[Heq|[?|[?|?]]]]; [tauto| |tauto|done|tauto].
    injection Heq as ->. done.
  - by apply run_case_unregister_absent.
Qed.

(** The scenario as [run] sees it: register A, then A's reading goroutine
    reports a read failure and unregisters A. *)
Example register_then_read_failure :
  run never_fails canonical_order [Register peerA; Unregister peerA]
    {| hub := newHub; calls := [] |} =
  Ok tt {| hub := newHub;
           calls := [CallPrintf fmt_connected 1;
                     CallClose peerA;
                     CallPrintf fmt_disconnected 0] |}.
Proof. vm_compute. reflexivity. Qed.

(** Register A and B, broadcast, unregister A, broadcast again: the first
    message goes to both, the second to B only, and B alone is left. *)
Example two_peers_scenario :
  run never_fails canonical_order
    [Register peerA; Register peerB; Broadcast hello; Unregister peerA; Broadcast world]
    {| hub := newHub; calls := [] |} =
  Ok tt {| hub := set_clients newHub (Made {[peerB := true]});
           calls := [CallPrintf fmt_connected 1;
                     CallPrintf fmt_connected 2;
                     CallPrintf fmt_broadcasting 2;
                     CallWriteMessage peerB TextMessage hello false;
                     CallWriteMessage peerA TextMessage hello false;
                     CallClose peerA;
                     CallPrintf fmt_disconnected 1;
                     CallPrintf fmt_broadcasting 1;
                     CallWriteMessage peerB TextMessage world false] |}.
Proof. vm_compute. reflexivity. Qed.

(** ** The program around the hub *)

Lemma same_channels_refl h : same_channels h h.
Proof. by repeat split. Qed.

Lemma same_channels_trans h1 h2 h3 :
  same_channels h1 h2 → same_channels h2 h3 → same_channels h1 h3.
Proof. intros (?&?&?) (?&?&?). repeat split; congruence. Qed.

Section ProgramFacts.

Variable write_err : list Call → Conn → Msg → bool.
Variable range_order : list Call → gmap Conn bool → list Conn.

Local Abbreviation broadcast_body := (broadcast_body write_err).
Local Abbreviation step := (step write_err range_order).
Local Abbreviation reachable := (reachable write_err range_order).

Lemma broadcast_body_channels m k s :
  ∃ s', broadcast_body m k s = Ok tt s' ∧ same_channels (hub s) (hub s').
Proof.
  unfold broadcast_body, WriteMessage. msimpl.
  destruct (write_err (calls s) k m); simpl.
  - unfold map_delete. simpl.
    destruct (clients (hub s)); eexists; (split; [done|by repeat split]).
  - eexists. split; [done|by repeat split].
Qed.

(** In whatever order the loop runs, it returns and leaves the channels
    alone. *)
Lemma range_loop_channels m order : ∀ s,
  ∃ s', range_loop order (broadcast_body m) s = Ok tt s' ∧
        same_channels (hub s) (hub s').
Proof.
  induction order as [|k rest IH]; intros s.
  - exists s. split; [done|apply same_channels_refl].
  - rewrite range_loop_cons.
    destruct (clients (hub s)) as [|cl]; [apply IH|].
    destruct (cl !! k); [|apply IH].
    destruct (broadcast_body_channels m k s) as (s1 & -> & H1).
    destruct (IH s1) as (s' & Hrun & H').
    exists s'. split; [done|by eapply same_channels_trans].
Qed.

Lemma run_case_channels ev s s' :
  run_case write_err range_order ev s = Ok tt s' → same_channels (hub s) (hub s').
Proof.
  destruct ev as [c|c|m]; unfold run_case; msimpl.
  - unfold map_assign. destruct (clients (hub s)); [done|].
    simpl. intros [= <-]. by repeat split.
  - unfold map_lookup. destruct (clients (hub s)) as [|cl] eqn:Hcl.
    + intros [= <-]. apply same_channels_refl.
    + destruct (cl !! c); simpl.
      * unfold map_delete. simpl. rewrite Hcl. simpl.
        intros [= <-]. by repeat split.
      * intros [= <-]. apply same_channels_refl.
  - unfold map_len, map_range.
    destruct (clients (hub s)) as [|cl] eqn:Hcl; simpl; rewrite Hcl.
    + intros [= <-]. by repeat split.
    + match goal with
      | |- range_loop ?o _ ?s1 = _ → _ =>
          destruct (range_loop_channels m o s1) as (s2 & -> & H2)
      end.
      by intros [= <-].
Qed.

Lemma hub_push_set_clients h ev cl :
  hub_push (set_clients h cl) ev = set_clients (hub_push h ev) cl.
Proof. by destruct ev. Qed.

Lemma hub_has_room_set_clients h ev cl :
  hub_has_room (set_clients h cl) ev = hub_has_room h ev.
Proof. by destruct ev. Qed.

Lemma hub_buffered_set_clients h ev cl :
  hub_buffered (set_clients h cl) ev = hub_buffered h ev.
Proof. by destruct ev. Qed.

Lemma unbuffered_no_room h ev : unbuffered h → hub_has_room h ev = false.
Proof. intros (Hb & Hr & Hu). destruct ev; simpl; by rewrite ?Hb, ?Hr, ?Hu. Qed.

Lemma unbuffered_buffered h ev : unbuffered h → hub_buffered h ev = 0.
Proof. intros (Hb & Hr & Hu). destruct ev; simpl; by rewrite ?Hb, ?Hr, ?Hu. Qed.

Lemma unbuffered_pop h : unbuffered h → hub_pop h = [].
Proof. intros (Hb & Hr & Hu). unfold hub_pop. by rewrite Hb, Hr, Hu. Qed.

Lemma reachable_unbuffered σ : reachable σ → unbuffered (hub (state σ)).
Proof.
  induction 1 as [|σ a σ' Hreach IH Hstep]; [by repeat split|].
  destruct Hstep as [σ conn Ht|σ conn res Ht|σ conn pc ev pc' Ht Hs Hroom
                    |σ conn pc ev pc' Ht Hs Hr Hb|σ ev h' Hr Hpop|σ ev s' Hr Hrun];
    simpl; try done.
  - by rewrite (unbuffered_no_room _ _ IH) in Hroom.
  - rewrite (unbuffered_pop _ IH) in Hpop. by apply elem_of_nil in Hpop.
  - apply run_case_channels in Hrun as (Hb & Hr' & Hu).
    destruct IH as (IHb & IHr & IHu). repeat split; congruence.
Qed.

(** With unbuffered channels, code at a send moves only by handing its
    value to [run] waiting at the [select]. *)
Lemma handler_send_step σ conn pc ev pc' σ' :
  unbuffered (hub (state σ)) →
  tasks σ !! conn = Some pc →
  handleWS_send conn pc = Some (ev, pc') →
  step σ (Handler conn) σ' →
  received σ = None ∧ received σ' = Some ev ∧ state σ' = state σ ∧
  tasks σ' = <[conn := pc']> (tasks σ).
Proof.
  intros Hunb Ht Hs Hstep. inversion Hstep; subst; simplify_eq.
  - by rewrite (unbuffered_no_room _ _ Hunb) in *.
  - done.
Qed.

End ProgramFacts.

(** ** Every connection of the program is closed once *)

Section ProgramInvariant.

Variable write_err : list Call → Conn → Msg → bool.
Variable range_order : list Call → gmap Conn bool → list Conn.
Hypothesis range_order_ok : range_ok range_order.

Lemma closes_inv_init : closes_inv init_sys.
Proof.
  split; [by eexists|]. intros c. unfold registered_by_now. simpl.
  rewrite lookup_empty. split; [|by repeat split].
  unfold live, registry. simpl. rewrite decide_False; [done|].
  rewrite dom_empty_L. apply not_elem_of_empty.
Qed.

Lemma closes_inv_accept σ conn :
  closes_inv σ →
  tasks σ !! conn = None →
  closes_inv {| state := state σ; received := received σ;
                tasks := <[conn := AtRegister]> (tasks σ) |}.
Proof.
  intros [Hmade Hinv] Hnone. split; [done|]. intros c.
  destruct (Hinv c) as (H1 & H2 & H3 & H4).
  unfold registered_by_now in *. simpl.
  destruct (decide (c = conn)) as [->|Hne].
  - rewrite lookup_insert_eq. rewrite Hnone in *.
    split; [done|]. split; [|split].
    + intros Hr. by destruct (H2 Hr) as (pc & Hpc & _).
    + intros Hr. by specialize (H3 Hr).
    + by intros [=].
  - by rewrite lookup_insert_ne.
Qed.

Lemma closes_inv_read σ conn res :
  closes_inv σ →
  tasks σ !! conn = Some AtRead →
  closes_inv {| state := state σ; received := received σ;
                tasks := <[conn := handleWS_read res]> (tasks σ) |}.
Proof.
  intros [Hmade Hinv] Ht. split; [done|]. intros c.
  destruct (Hinv c) as (H1 & H2 & H3 & H4).
  unfold registered_by_now in *. simpl.
  destruct (decide (c = conn)) as [->|Hne].
  - rewrite lookup_insert_eq. rewrite Ht in *.
    split; [by destruct res|]. split; [|split].
    + intros _. exists (handleWS_read res). by destruct res.
    + intros Hr. by specialize (H3 Hr).
    + by destruct res.
  - by rewrite lookup_insert_ne.
Qed.

Lemma handleWS_send_event conn pc ev pc' c :
  handleWS_send conn pc = Some (ev, pc') →
  (ev = Register c → c = conn ∧ pc = AtRegister ∧ pc' = AtRead) ∧
  (ev = Unregister c → c = conn ∧ pc = AtUnregister ∧ pc' = Exited).
Proof. destruct pc; intros [= <- <-]; split; intros [=]; by subst. Qed.

Lemma closes_inv_send σ conn pc ev pc' :
  closes_inv σ →
  tasks σ !! conn = Some pc →
  handleWS_send conn pc = Some (ev, pc') →
  received σ = None →
  closes_inv {| state := state σ; received := Some ev;
                tasks := <[conn := pc']> (tasks σ) |}.
Proof.
  intros [Hmade Hinv] Ht Hs Hr. split; [done|]. intros c.
  destruct (Hinv c) as (H1 & _ & _ & H4).
  destruct (handleWS_send_event conn pc ev pc' c Hs) as [Hreg Hunreg].
  unfold registered_by_now in *. simpl. rewrite Hr in *.
  destruct (decide (c = conn)) as [->|Hne].
  - rewrite lookup_insert_eq. rewrite Ht in *.
    split; [|split; [|split]].
    + destruct pc; simplify_eq/=; rewrite ?decide_True by done; done.
    + intros [= ->]. destruct Hreg as (_ & -> & ->); [done|]. by exists AtRead.
    + intros [= ->]. by destruct Hunreg as (_ & _ & ->).
    + intros [= ->] Hneq. destruct pc; simplify_eq/=.
  - rewrite lookup_insert_ne by done.
    assert (Hev : Some ev ≠ Some (Register c)).
    { intros [= ->]. by destruct Hreg as [? _]. }
    split; [|split; [done|split]].
    + destruct (tasks σ !! c) as [[]|]; try done;
        rewrite decide_False by done;
        by rewrite ?decide_False in H1 by done.
    + intros [= ->]. by destruct Hunreg as [? _].
    + intros Hex _. by apply H4.
Qed.

Lemma closes_inv_case σ ev s' :
  closes_inv σ →
  received σ = Some ev →
  run_case write_err range_order ev (state σ) = Ok tt s' →
  closes_inv {| state := s'; received := None; tasks := tasks σ |}.
Proof.
  intros [[cl Hcl] Hinv] Hr Hrun.
  destruct (run_case_spec write_err range_order range_order_ok ev (state σ) cl Hcl)
    as (cl' & t & Hrun' & Hpost).
  assert (Hs' : s' = {| hub := set_clients (hub (state σ)) (Made cl');
                       calls := calls (state σ) ++ t |}) by congruence.
  split; [exists cl'; by rewrite Hs'|]. intros c.
  destruct (Hinv c) as (H1 & H2 & H3 & H4).
  assert (Hcons : ev ≠ Register c →
            closes c (calls s') + live c s' =
            closes c (calls (state σ)) + live c (state σ)).
  { intros Hev.
    destruct (run_case_conserves write_err range_order range_order_ok c ev
                (state σ) cl Hcl Hev) as (s'' & _ & _ & Hrun'' & _ & _ & Hc).
    congruence. }
  unfold registered_by_now in *. simpl. rewrite Hr in *.
  split; [|split; [done|split; [done|]]].
  - destruct (decide (ev = Register c)) as [->|Hev].
    + destruct (H2 eq_refl) as (pc & Hpc & Hn1 & Hn2). rewrite Hpc in *.
      assert (H0 : closes c (calls (state σ)) + live c (state σ) = 0)
        by (destruct pc; try done; by rewrite decide_True in H1).
      assert (H1' : closes c (calls s') + live c s' = 1).
      { simpl in Hpost. destruct Hpost as [-> ->]. rewrite Hs'.
        unfold live, registry, closes. simpl. rewrite count_calls_app. simpl.
        rewrite decide_True by (apply elem_of_dom; rewrite lookup_insert_eq; eauto).
        fold (closes c (calls (state σ))). lia. }
      destruct pc; try done; by rewrite decide_False.
    + specialize (Hcons Hev). rewrite Hcons, H1.
      destruct (tasks σ !! c) as [[]|]; try done;
        rewrite !decide_False; congruence.
  - intros Hex _.
    destruct (decide (ev = Unregister c)) as [->|Hev].
    + simpl in Hpost. rewrite Hs'. unfold registry. simpl.
      destruct Hpost as [(_ & -> & _)|(Hout & -> & _)]; [|done].
      apply not_elem_of_dom, lookup_delete_eq.
    + assert (Hev' : ev ≠ Register c).
      { intros ->. destruct (H2 eq_refl) as (pc & Hpc & _ & Hn). congruence. }
      assert (Hout : c ∉ registry (state σ)) by (apply H4; [done|congruence]).
      specialize (Hcons Hev'). revert Hcons. unfold live.
      rewrite (decide_False _ _ Hout). rewrite Hs' at 1. simpl.
      unfold closes at 1. rewrite count_calls_app.
      fold (closes c (calls (state σ))) (closes c t).
      destruct (decide (c ∈ registry s')); [lia|done].
Qed.

Lemma reachable_closes_inv σ :
  reachable write_err range_order σ → closes_inv σ.
Proof.
  induction 1 as [|σ a σ' Hreach IH Hstep]; [apply closes_inv_init|].
  pose proof (reachable_unbuffered _ _ _ Hreach) as Hunb.
  destruct Hstep as [σ conn Ht|σ conn res Ht|σ conn pc ev pc' Ht Hs Hroom
                    |σ conn pc ev pc' Ht Hs Hr Hb|σ ev h' Hr Hpop|σ ev s' Hr Hrun].
  - by apply closes_inv_accept.
  - by apply closes_inv_read.
  - by rewrite (unbuffered_no_room _ _ Hunb) in Hroom.
  - by eapply closes_inv_send.
  - rewrite (unbuffered_pop _ Hunb) in Hpop. by apply elem_of_nil in Hpop.
  - by eapply closes_inv_case.
Qed.

(** In every state the program reaches, no connection has been closed
    twice; a connection whose code in [handleWS] has made its deferred
    send, once [run] has handled it, has been closed exactly once and is
    out of the map; and [run] never panics in a case. *)
Lemma program_closes_once σ :
  reachable write_err range_order σ →
  (∀ c, closes c (calls (state σ)) ≤ 1) ∧
  (∀ c, tasks σ !! c = Some Exited → received σ ≠ Some (Unregister c) →
        closes c (calls (state σ)) = 1 ∧ c ∉ registry (state σ)) ∧
  (∀ ev, ∃ s', run_case write_err range_order ev (state σ) = Ok tt s').
Proof.
  intros [[cl Hcl] Hinv]%reachable_closes_inv. split; [|split].
  - intros c. destruct (Hinv c) as (H1 & _). revert H1. unfold registered_by_now.
    destruct (tasks σ !! c) as [[]|]; try case_decide; lia.
  - intros c Hex Hneq. destruct (Hinv c) as (H1 & H2 & _ & H4).
    specialize (H4 Hex Hneq). split; [|done].
    revert H1. unfold registered_by_now, live. rewrite Hex.
    rewrite (decide_False _ _ H4). case_decide as Hreg; [|lia].
    destruct (H2 Hreg) as (pc & Hpc & _ & Hn). congruence.
  - intros ev.
    destruct (run_case_spec write_err range_order range_order_ok ev (state σ) cl Hcl)
      as (cl' & t & Hrun & _).
    eauto.
Qed.

End ProgramInvariant.

(** C6: a registered connection is closed exactly once. In every state
    the program reaches no connection has been closed twice, and a
    connection whose reading goroutine has ended and whose deferred
    [Unregister] [run] has handled has been closed exactly once and is out
    of the map. For [run] alone: whatever the events in which [A] is
    registered once and unregistered later, [Close] is called on [A]
    exactly once, [A] is out of the map at the end, the map holds no peer
    that was not there before or registered by another event (after just
    [Register A; Unregister A] from [newHub] it is empty), and another
    [Unregister A] calls nothing. *)
Theorem peer_closed_exactly_once
    (write_err : list Call → Conn → Msg → bool)
    (range_order : list Call → gmap Conn bool → list Conn) :
  range_ok range_order →
  (∀ σ, reachable write_err range_order σ →
     (∀ c, closes c (calls (state σ)) ≤ 1) ∧
     (∀ c, tasks σ !! c = Some Exited → received σ ≠ Some (Unregister c) →
           closes c (calls (state σ)) = 1 ∧ c ∉ registry (state σ))) ∧
  (∀ A pre mid post s cl,
     clients (hub s) = Made cl →
     A ∉ registry s →
     Register A ∉ pre → Register A ∉ mid → Register A ∉ post →
     ∃ s',
       run write_err range_order (pre ++ Register A :: mid ++ Unregister A :: post) s =
         Ok tt s' ∧
       closes A (calls s') = closes A (calls s) + 1 ∧
       (A ∉ registry s') ∧
       (∀ q, q ∈ registry s' → q ∈ registry s ∨ Register q ∈ pre ++ mid ++ post) ∧
       run_case write_err range_order (Unregister A) s' = Ok tt s').
Proof.
  intros Hok. split.
  - intros σ Hreach.
    destruct (program_closes_once write_err range_order Hok σ Hreach) as (H1 & H2 & _).
    by split.
  - intros A pre mid post s cl. by apply run_closes_once.
Qed.

Lemma reachable_registered_example :
  reachable never_fails canonical_order registered_example.
Proof.
  apply (reachable_step _ _
           {| state := state accepted_example; received := Some (Register peerA);
              tasks := <[peerA := AtRead]> (tasks accepted_example) |} Coordinator).
  - apply (reachable_step _ _ accepted_example (Handler peerA)).
    + apply (reachable_step _ _ init_sys (Handler peerA)).
      * apply reachable_init.
      * exact (step_accept _ _ init_sys peerA eq_refl).
    + exact (step_send_direct _ _ accepted_example peerA AtRegister
               (Register peerA) AtRead eq_refl eq_refl eq_refl eq_refl).
  - exact (step_case never_fails canonical_order
             {| state := state accepted_example; received := Some (Register peerA);
                tasks := <[peerA := AtRead]> (tasks accepted_example) |}
             (Register peerA) (state registered_example) eq_refl eq_refl).
Defined.

Lemma reachable_closed_example :
  reachable never_fails canonical_order closed_example.
Proof.
  apply (reachable_step _ _
           {| state := state registered_example; received := Some (Unregister peerA);
              tasks := <[peerA := Exited]>
                         (<[peerA := handleWS_read None]> (tasks registered_example)) |}
           Coordinator).
  - apply (reachable_step _ _
             {| state := state registered_example; received := received registered_example;
                tasks := <[peerA := handleWS_read None]> (tasks registered_example) |}
             (Handler peerA)).
    + apply (reachable_step _ _ registered_example (Handler peerA)).
      * exact reachable_registered_example.
      * exact (step_read _ _ registered_example peerA None eq_refl).
    + exact (step_send_direct _ _
               {| state := state registered_example;
                  received := received registered_example;
                  tasks := <[peerA := handleWS_read None]> (tasks registered_example) |}
               peerA AtUnregister (Unregister peerA) Exited
               eq_refl eq_refl eq_refl eq_refl).
  - exact (step_case never_fails canonical_order
             {| state := state registered_example; received := Some (Unregister peerA);
                tasks := <[peerA := Exited]>
                           (<[peerA := handleWS_read None]> (tasks registered_example)) |}
             (Unregister peerA) (state closed_example) eq_refl eq_refl).
Defined.

Lemma peer_closed_exactly_once_witness :
  (closes peerA (calls (state closed_example)) = 1 ∧
   peerA ∉ registry (state closed_example)) ∧
  ∃ s',
    run (fails_for peerB) canonical_order
      ([Register peerB] ++ Register peerA ::
         [Broadcast hello; Unregister peerB] ++ Unregister peerA :: [Unregister peerA])
      {| hub := newHub; calls := [] |} = Ok tt s' ∧
    closes peerA (calls s') = closes peerA [] + 1 ∧
    (peerA ∉ registry s') ∧
    (∀ q, q ∈ registry s' →
          q ∈ registry {| hub := newHub; calls := [] |} ∨
          Register q ∈ [Register peerB] ++ [Broadcast hello; Unregister peerB] ++
                       [Unregister peerA]) ∧
    run_case (fails_for peerB) canonical_order (Unregister peerA) s' = Ok tt s'.
Proof.
  split.
  - apply (proj1 (peer_closed_exactly_once never_fails canonical_order
                    ltac:(intros t m; reflexivity))
             closed_example reachable_closed_example).
    + reflexivity.
    + discriminate.
  - eapply (proj2 (peer_closed_exactly_once (fails_for peerB) canonical_order
                     ltac:(intros t m; reflexivity))
              peerA [Register peerB] [Broadcast hello; Unregister peerB] [Unregister peerA]
              {| hub := newHub; calls := [] |}).
    + reflexivity.
    + apply not_elem_of_dom. reflexivity.
    + intros Hin. apply list_elem_of_In in Hin. simpl in Hin.
      destruct Hin as [Heq|[]]. discriminate Heq.
    + intros Hin. apply list_elem_of_In in Hin. simpl in Hin.
      destruct Hin as [Heq|[Heq|[]]]; discriminate Heq.
    + intros Hin. apply list_elem_of_In in Hin. simpl in Hin.
      destruct Hin as [Heq|[]]. discriminate Heq.
Defined.

(** C9: only [run] touches the map. A step of the code of [handleWS],
    which is every step that is not a step of [run], leaves the map and
    the calls of [run] as they are, and it does not read the map either:
    the same step is there whatever the map holds. *)
Theorem registry_single_writer
    (write_err : list Call → Conn → Msg → bool)
    (range_order : list Call → gmap Conn bool → list Conn)
    (σ σ' : Sys) (a : Actor) :
  step write_err range_order σ a σ' →
  a ≠ Coordinator →
  clients (hub (state σ')) = clients (hub (state σ)) ∧
  calls (state σ') = calls (state σ) ∧
  ∀ cl, step write_err range_order (with_clients σ cl) a (with_clients σ' cl).
Proof.
  intros Hstep Ha.
  destruct Hstep as [σ conn Ht|σ conn res Ht|σ conn pc ev pc' Ht Hs Hroom
                    |σ conn pc ev pc' Ht Hs Hr Hb|σ ev h' Hr Hpop|σ ev s' Hr Hrun];
    try done; simpl.
  - split; [done|]. split; [done|]. intros cl.
    exact (step_accept _ _ (with_clients σ cl) conn Ht).
  - split; [done|]. split; [done|]. intros cl.
    exact (step_read _ _ (with_clients σ cl) conn res Ht).
  - split; [by destruct ev|]. split; [done|]. intros cl.
    unfold with_clients at 2. simpl. rewrite <- hub_push_set_clients.
    apply (step_send_buffered _ _ (with_clients σ cl) conn pc ev pc' Ht Hs).
    simpl. by rewrite hub_has_room_set_clients.
  - split; [done|]. split; [done|]. intros cl.
    apply (step_send_direct _ _ (with_clients σ cl) conn pc ev pc' Ht Hs Hr).
    simpl. by rewrite hub_buffered_set_clients.
Qed.

Lemma registry_single_writer_witness :
  clients (hub (state accepted_example)) = clients (hub (state init_sys)) ∧
  calls (state accepted_example) = calls (state init_sys) ∧
  ∀ cl, step never_fails canonical_order
          (with_clients init_sys cl) (Handler peerA) (with_clients accepted_example cl).
Proof.
  apply (registry_single_writer never_fails canonical_order
           init_sys accepted_example (Handler peerA)).
  - apply (step_accept _ _ init_sys peerA). reflexivity.
  - discriminate.
Defined.

(** C8, as the code has it: the channels of the hub are unbuffered. In
    every state the program reaches, each of the three channels has
    capacity 0 and holds nothing, and code of [handleWS] that is at a send
    can take its step exactly when [run] waits at its [select]; the step
    hands the value to [run] and changes nothing else. While [run] is in
    a case, every send waits. *)
Theorem mailbox_is_unbuffered
    (write_err : list Call → Conn → Msg → bool)
    (range_order : list Call → gmap Conn bool → list Conn)
    (σ : Sys) :
  reachable write_err range_order σ →
  unbuffered (hub (state σ)) ∧
  ∀ conn pc ev pc',
    tasks σ !! conn = Some pc →
    handleWS_send conn pc = Some (ev, pc') →
    ((∃ σ', step write_err range_order σ (Handler conn) σ') ↔ received σ = None) ∧
    (∀ σ', step write_err range_order σ (Handler conn) σ' →
           received σ' = Some ev ∧ state σ' = state σ ∧
           tasks σ' = <[conn := pc']> (tasks σ)).
Proof.
  intros Hreach.
  pose proof (reachable_unbuffered _ _ _ Hreach) as Hunb.
  split; [done|]. intros conn pc ev pc' Ht Hs.
  assert (Hinv : ∀ σ', step write_err range_order σ (Handler conn) σ' →
            received σ = None ∧ received σ' = Some ev ∧ state σ' = state σ ∧
            tasks σ' = <[conn := pc']> (tasks σ))
    by (intros σ'; by apply handler_send_step with pc).
  split.
  - split.
    + intros [σ' Hstep]. by apply Hinv in Hstep as [? _].
    + intros Hr. eexists.
      apply (step_send_direct _ _ σ conn pc ev pc' Ht Hs Hr).
      by apply unbuffered_buffered.
  - intros σ' Hstep. by apply Hinv in Hstep as [_ ?].
Qed.

Lemma mailbox_is_unbuffered_witness :
  unbuffered (hub (state accepted_example)) ∧
  ∀ conn pc ev pc',
    tasks accepted_example !! conn = Some pc →
    handleWS_send conn pc = Some (ev, pc') →
    ((∃ σ', step never_fails canonical_order accepted_example (Handler conn) σ') ↔
     received accepted_example = None) ∧
    (∀ σ', step never_fails canonical_order accepted_example (Handler conn) σ' →
           received σ' = Some ev ∧ state σ' = state accepted_example ∧
           tasks σ' = <[conn := pc']> (tasks accepted_example)).
Proof.
  apply (mailbox_is_unbuffered never_fails canonical_order accepted_example).
  apply (reachable_step _ _ init_sys (Handler peerA)).
  - apply reachable_init.
  - apply (step_accept _ _ init_sys peerA). reflexivity.
Defined.

(** C8, as the claim has it, fails: the program reaches a state in which
    [handleWS] for B is at its send to [h.register], a channel of capacity
    0, while [run] is busy with the [Register] of A, and there the send
    cannot be made. *)
Lemma send_waits_while_run_is_busy :
  reachable never_fails canonical_order busy_example ∧
  tasks busy_example !! peerB = Some AtRegister ∧
  handleWS_send peerB AtRegister = Some (Register peerB, AtRead) ∧
  chan_cap (register (hub (state busy_example))) = 0 ∧
  ¬ ∃ σ', step never_fails canonical_order busy_example (Handler peerB) σ'.
Proof.
  split; [|split; [done|split; [done|split; [done|]]]].
  - unfold busy_example.
    apply (reachable_step _ _
             {| state := state init_sys; received := Some (Register peerA);
                tasks := <[peerA := AtRead]> (tasks accepted_example) |}
             (Handler peerB)).
    + apply (reachable_step _ _ accepted_example (Handler peerA)).
      * apply (reachable_step _ _ init_sys (Handler peerA)).
        -- apply reachable_init.
        -- apply (step_accept _ _ init_sys peerA). reflexivity.
      * apply (step_send_direct _ _ accepted_example peerA AtRegister
                 (Register peerA) AtRead); reflexivity.
    + exact (step_accept never_fails canonical_order
               {| state := state init_sys; received := Some (Register peerA);
                  tasks := <[peerA := AtRead]> (tasks accepted_example) |} peerB eq_refl).
  - intros [σ' Hstep].
    apply (handler_send_step _ _ busy_example peerB AtRegister (Register peerB) AtRead)
      in Hstep as [Hr _]; [discriminate Hr|by repeat split|done|done].
Qed.

(** * More properties of the hub *)

(** ** The broadcast loop computes [fanout] *)

Section Fanout.

Variable write_err : list Call → Conn → Msg → bool.
Variable range_order : list Call → gmap Conn bool → list Conn.

Lemma range_loop_fanout m order : ∀ s cl,
  clients (hub s) = Made cl →
  range_loop order (broadcast_body write_err m) s =
    Ok tt {| hub := set_clients (hub s)
                      (Made (fanout write_err m order (calls s) cl).1);
             calls := calls s ++ (fanout write_err m order (calls s) cl).2 |}.
Proof.
  induction order as [|k rest IH]; intros s cl Hcl.
  - simpl. unfold mret, M_ret. f_equal. by apply state_eta.
  - rewrite range_loop_cons, Hcl. simpl fanout.
    destruct (cl !! k) as [v|] eqn:Hk; [|by apply IH].
    destruct (write_err (calls s) k m) eqn:He.
    + rewrite (broadcast_body_err _ _ _ _ _ Hcl He).
      rewrite (IH {| hub := set_clients (hub s) (Made (delete k cl));
                     calls := calls s ++
                       [CallWriteMessage k TextMessage m true; CallClose k] |}
                 (delete k cl) eq_refl).
      simpl. by rewrite <- app_assoc.
    + rewrite (broadcast_body_ok _ _ _ _ He).
      rewrite (IH {| hub := hub s;
                     calls := calls s ++ [CallWriteMessage k TextMessage m false] |}
                 cl Hcl).
      simpl. by rewrite <- app_assoc.
Qed.

Lemma run_case_broadcast_fanout s cl m :
  clients (hub s) = Made cl →
  run_case write_err range_order (Broadcast m) s =
    Ok tt {| hub := set_clients (hub s)
                      (Made (fanout write_err m
                               (range_order (calls s ++ [CallPrintf fmt_broadcasting (size cl)]) cl)
                               (calls s ++ [CallPrintf fmt_broadcasting (size cl)]) cl).1);
             calls := calls s ++
               CallPrintf fmt_broadcasting (size cl) ::
               (fanout write_err m
                  (range_order (calls s ++ [CallPrintf fmt_broadcasting (size cl)]) cl)
                  (calls s ++ [CallPrintf fmt_broadcasting (size cl)]) cl).2 |}.
Proof.
  intros Hcl. unfold run_case. msimpl. unfold map_len. rewrite Hcl. simpl.
  unfold map_range. simpl. rewrite Hcl.
  rewrite (range_loop_fanout m _
             {| hub := hub s;
                calls := calls s ++ [CallPrintf fmt_broadcasting (size cl)] |} cl Hcl).
  simpl. by rewrite <- app_assoc.
Qed.

(** How many calls of each kind the loop makes. *)
Lemma fanout_totals m order : ∀ t0 cl,
  NoDup order →
  (∀ k, k ∈ order → k ∈ dom cl) →
  count_calls is_any_write (fanout write_err m order t0 cl).2 = length order ∧
  count_calls is_printf (fanout write_err m order t0 cl).2 = 0 ∧
  count_calls is_any_close (fanout write_err m order t0 cl).2 +
    size (fanout write_err m order t0 cl).1 = size cl.
Proof.
  induction order as [|k rest IH]; intros t0 cl Hnd Hin; [simpl; lia|].
  apply NoDup_cons in Hnd as [Hk Hnd].
  assert (Hkd : k ∈ dom cl) by (apply Hin; by left).
  apply elem_of_dom in Hkd as [v Hv]. simpl fanout. rewrite Hv. simpl.
  destruct (write_err t0 k m) eqn:He; simpl.
  - destruct (IH (t0 ++ write_calls k m true) (delete k cl) Hnd) as (Hw & Hp & Hc).
    { intros k' Hk'. apply dom_delete_in; [by intros ->|]. apply Hin. by right. }
    rewrite Hw, Hp. split; [done|]. split; [done|].
    rewrite map_size_delete_Some in Hc by eauto.
    assert (0 < size cl); [|lia].
    apply Nat.neq_0_lt_0. intros H0%map_size_empty_inv. by rewrite H0 in Hv.
  - destruct (IH (t0 ++ write_calls k m false) cl Hnd) as (Hw & Hp & Hc).
    { intros k' Hk'. apply Hin. by right. }
    rewrite Hw, Hp. by repeat split.
Qed.

End Fanout.

(** X2: the count a broadcast prints is the number of sends it makes. The
    broadcast case prints once, the number of peers in the map; then it
    calls [WriteMessage] exactly that many times, and [Close] once for
    every peer it takes out of the map. A peer taken out by a failed send
    gets no line of its own. *)
Theorem broadcast_accounting
    (write_err : list Call → Conn → Msg → bool)
    (range_order : list Call → gmap Conn bool → list Conn)
    (s : St) (cl : gmap Conn bool) (m : Msg) :
  range_ok range_order →
  clients (hub s) = Made cl →
  ∃ s' t,
    run_case write_err range_order (Broadcast m) s = Ok tt s' ∧
    calls s' = calls s ++ CallPrintf fmt_broadcasting (size (registry s)) :: t ∧
    count_calls is_printf t = 0 ∧
    count_calls is_any_write t = size (registry s) ∧
    count_calls is_any_close t + size (registry s') = size (registry s).
Proof.
  intros Hok Hcl. rewrite (registry_made _ _ Hcl), size_dom.
  eexists _, _. split; [by apply run_case_broadcast_fanout|].
  split; [done|]. unfold registry. simpl. rewrite size_dom.
  set (t1 := calls s ++ [CallPrintf fmt_broadcasting (size cl)]).
  destruct (fanout_totals write_err m (range_order t1 cl) t1 cl) as (Hw & Hp & Hc).
  - by apply range_ok_NoDup.
  - intros k. by apply range_ok_elem_of.
  - split; [done|]. split; [|done].
    rewrite Hw, (Hok t1 cl). unfold map_keys.
    by rewrite length_fmap, length_map_to_list.
Qed.

Lemma broadcast_accounting_witness :
  ∃ s' t,
    run_case (fails_for peerB) reverse_order (Broadcast hello)
      (hub_with [peerA; peerB; peerC]) = Ok tt s' ∧
    calls s' = calls (hub_with [peerA; peerB; peerC]) ++
      CallPrintf fmt_broadcasting (size (registry (hub_with [peerA; peerB; peerC]))) :: t ∧
    count_calls is_printf t = 0 ∧
    count_calls is_any_write t = size (registry (hub_with [peerA; peerB; peerC])) ∧
    count_calls is_any_close t + size (registry s') =
      size (registry (hub_with [peerA; peerB; peerC])).
Proof.
  eapply (broadcast_accounting (fails_for peerB) reverse_order
            (hub_with [peerA; peerB; peerC]) _ hello).
  - intros t m. apply reverse_Permutation.
  - reflexivity.
Defined.

(** ** The order of the loop does not matter *)

Section FanoutConst.

(** Whether a write fails depends on the connection and the message only. *)
Variable err : Conn → Msg → bool.

Lemma fanout_const_map m order : ∀ t0 cl c,
  (fanout (λ _, err) m order t0 cl).1 !! c =
    if bool_decide (c ∈ order) && err c m then None else cl !! c.
Proof.
  induction order as [|k rest IH]; intros t0 cl c.
  - done.
  - simpl fanout. destruct (cl !! k) as [v|] eqn:Hk; cbn [fst snd].
    + rewrite IH. destruct (decide (c = k)) as [->|Hne].
      * rewrite (bool_decide_true (k ∈ k :: rest)) by (by left).
        destruct (err k m) eqn:He; simpl.
        -- rewrite lookup_delete_eq. by destruct (bool_decide (k ∈ rest)).
        -- by rewrite andb_false_r.
      * assert (Hiff : bool_decide (c ∈ k :: rest) = bool_decide (c ∈ rest)).
        { apply bool_decide_ext. rewrite elem_of_cons.
          split; [by intros [?|?]|by right]. }
        rewrite Hiff. destruct (err k m); [by rewrite lookup_delete_ne|done].
    + rewrite IH. destruct (decide (c = k)) as [->|Hne].
      * rewrite Hk. by repeat case_match.
      * assert (Hiff : bool_decide (c ∈ k :: rest) = bool_decide (c ∈ rest)).
        { apply bool_decide_ext. rewrite elem_of_cons.
          split; [by intros [?|?]|by right]. }
        by rewrite Hiff.
Qed.

Lemma fanout_const_calls m order : ∀ t0 cl,
  NoDup order →
  (∀ k, k ∈ order → k ∈ dom cl) →
  (fanout (λ _, err) m order t0 cl).2 =
    order ≫= (λ k, write_calls k m (err k m)).
Proof.
  induction order as [|k rest IH]; intros t0 cl Hnd Hin; [done|].
  apply NoDup_cons in Hnd as [Hk Hnd].
  assert (Hkd : k ∈ dom cl) by (apply Hin; by left).
  apply elem_of_dom in Hkd as [v Hv]. simpl fanout. rewrite Hv. simpl.
  f_equal. destruct (err k m); f_equal; apply IH; try done.
  - intros k' Hk'. apply dom_delete_in; [by intros ->|]. apply Hin. by right.
  - intros k' Hk'. apply Hin. by right.
Qed.

End FanoutConst.

(** X10: the order in which a broadcast visits the peers does not matter.
    When the failure of a write depends on the connection and the message
    only, two broadcasts of the same message from the same state, run in
    two different orders, leave the same hub and make the same calls up to
    their order; the peers left are those whose write succeeds. *)
Theorem broadcast_order_irrelevant
    (err : Conn → Msg → bool)
    (order1 order2 : list Call → gmap Conn bool → list Conn)
    (s : St) (cl : gmap Conn bool) (m : Msg) :
  range_ok order1 →
  range_ok order2 →
  clients (hub s) = Made cl →
  ∃ s1 s2 t1 t2,
    run_case (λ _, err) order1 (Broadcast m) s = Ok tt s1 ∧
    run_case (λ _, err) order2 (Broadcast m) s = Ok tt s2 ∧
    hub s1 = hub s2 ∧
    calls s1 = calls s ++ t1 ∧
    calls s2 = calls s ++ t2 ∧
    t1 ≡ₚ t2 ∧
    (∀ c, c ∈ registry s1 ↔ c ∈ registry s ∧ err c m = false).
Proof.
  intros Hok1 Hok2 Hcl.
  eexists _, _, _, _.
  split; [by apply run_case_broadcast_fanout|].
  split; [by apply run_case_broadcast_fanout|].
  set (t0 := calls s ++ [CallPrintf fmt_broadcasting (size cl)]).
  assert (Hmap : ∀ order, range_ok order → ∀ c,
            (fanout (λ _, err) m (order t0 cl) t0 cl).1 !! c =
              if err c m then None else cl !! c).
  { intros order Hok c. rewrite fanout_const_map.
    destruct (decide (c ∈ dom cl)) as [Hin|Hout].
    - rewrite bool_decide_true; [done|]. by apply range_ok_elem_of.
    - apply not_elem_of_dom in Hout. rewrite Hout. by repeat case_match. }
  split; [|split; [done|split; [done|split]]].
  - simpl. f_equal. f_equal. apply map_eq. intros c.
    by rewrite (Hmap order1 Hok1), (Hmap order2 Hok2).
  - constructor.
    rewrite !fanout_const_calls;
      try (by apply range_ok_NoDup); try (intros k; by apply range_ok_elem_of).
    subst t0. by rewrite (Hok1 _ cl), (Hok2 _ cl).
  - intros c. rewrite (registry_made _ _ Hcl). unfold registry. simpl.
    rewrite !elem_of_dom, (Hmap order1 Hok1).
    destruct (err c m).
    + split; [by intros [? ?]|by intros [_ ?]].
    + split; [by intros ?|by intros [? _]].
Qed.

Lemma broadcast_order_irrelevant_witness :
  ∃ s1 s2 t1 t2,
    run_case (λ _, fails_for peerB []) canonical_order (Broadcast hello)
      (hub_with [peerA; peerB; peerC]) = Ok tt s1 ∧
    run_case (λ _, fails_for peerB []) reverse_order (Broadcast hello)
      (hub_with [peerA; peerB; peerC]) = Ok tt s2 ∧
    hub s1 = hub s2 ∧
    calls s1 = calls (hub_with [peerA; peerB; peerC]) ++ t1 ∧
    calls s2 = calls (hub_with [peerA; peerB; peerC]) ++ t2 ∧
    t1 ≡ₚ t2 ∧
    (∀ c, c ∈ registry s1 ↔
          c ∈ registry (hub_with [peerA; peerB; peerC]) ∧
          fails_for peerB [] c hello = false).
Proof.
  eapply (broadcast_order_irrelevant (fails_for peerB []) canonical_order reverse_order
            (hub_with [peerA; peerB; peerC]) _ hello).
  - intros t m. reflexivity.
  - intros t m. apply reverse_Permutation.
  - reflexivity.
Defined.

(** ** Registrations *)

(** X1: no registration is lost. When [run] handles the [Register] of
    distinct connections that are not in the map, in whatever number, all
    of them are in the map afterwards, the map has grown by exactly that
    number, and the totals printed count up one by one. *)
Theorem registrations_all_counted
    (write_err : list Call → Conn → Msg → bool)
    (range_order : list Call → gmap Conn bool → list Conn)
    (cs : list Conn) (s : St) (cl : gmap Conn bool) :
  clients (hub s) = Made cl →
  NoDup cs →
  (∀ c, c ∈ cs → c ∉ registry s) →
  ∃ s',
    run write_err range_order (Register <$> cs) s = Ok tt s' ∧
    registry s' = list_to_set cs ∪ registry s ∧
    size (registry s') = length cs + size (registry s) ∧
    calls s' = calls s ++
      ((λ i, CallPrintf fmt_connected (size (registry s) + i)) <$> seq 1 (length cs)).
Proof.
  revert s cl. induction cs as [|c cs IH]; intros s cl Hcl Hnd Hnew.
  - exists s. rewrite run_nil. split; [done|]. simpl.
    split; [symmetry; apply (left_id_L ∅ (∪))|].
    split; [done|by rewrite app_nil_r].
  - apply NoDup_cons in Hnd as [Hc Hnd].
    assert (Hout : c ∉ dom cl).
    { rewrite <- (registry_made _ _ Hcl). apply Hnew. by left. }
    pose proof (run_case_register write_err range_order s cl c Hcl) as Hrun1.
    set (s1 := {| hub := set_clients (hub s) (Made (<[c:=true]> cl));
                  calls := calls s ++ [CallPrintf fmt_connected (size (<[c:=true]> cl))] |})
      in Hrun1.
    assert (Hreg1 : registry s1 = {[c]} ∪ registry s).
    { rewrite (registry_made _ _ Hcl). unfold registry. simpl. apply dom_insert_L. }
    assert (Hsize1 : size (registry s1) = S (size (registry s))).
    { rewrite Hreg1, size_union, size_singleton; [done|].
      apply disjoint_singleton_l. apply Hnew. by left. }
    destruct (IH s1 (<[c:=true]> cl) eq_refl Hnd) as (s' & Hrun & Hreg & Hsize & Hcalls).
    { intros c' Hc'. rewrite Hreg1. apply not_elem_of_union. split.
      - apply not_elem_of_singleton. by intros ->.
      - apply Hnew. by right. }
    exists s'. simpl fmap. rewrite run_cons, Hrun1. split; [exact Hrun|].
    split; [|split].
    + rewrite Hreg, Hreg1. simpl. by rewrite (assoc_L (∪)), (comm_L (∪) _ {[c]}).
    + rewrite Hsize, Hsize1. simpl. lia.
    + rewrite Hcalls. subst s1. simpl calls. rewrite <- app_assoc. f_equal.
      simpl. f_equal.
      * f_equal. rewrite map_size_insert_None by (by apply not_elem_of_dom).
        rewrite (registry_made _ _ Hcl), size_dom. lia.
      * rewrite <- (fmap_S_seq 1 (length cs)), <- list_fmap_compose.
        apply list_fmap_ext. intros i n _. simpl. f_equal.
        rewrite Hsize1. lia.
Qed.

Lemma registrations_all_counted_witness :
  ∃ s',
    run never_fails canonical_order (Register <$> [peerC; peerA; peerB])
      {| hub := newHub; calls := [] |} = Ok tt s' ∧
    registry s' = list_to_set [peerC; peerA; peerB] ∪
                  registry {| hub := newHub; calls := [] |} ∧
    size (registry s') = length [peerC; peerA; peerB] +
                         size (registry {| hub := newHub; calls := [] |}) ∧
    calls s' = [] ++
      ((λ i, CallPrintf fmt_connected
               (size (registry {| hub := newHub; calls := [] |}) + i)) <$>
         seq 1 (length [peerC; peerA; peerB])).
Proof.
  eapply (registrations_all_counted never_fails canonical_order
            [peerC; peerA; peerB] {| hub := newHub; calls := [] |}).
  - reflexivity.
  - apply NoDup_ListNoDup. repeat constructor; simpl; intros H;
      repeat (destruct H as [H|H]; [discriminate H|]); exact H.
  - intros c _. apply not_elem_of_dom. reflexivity.
Defined.

(** X8: registering a connection and unregistering it again is a round
    trip on the hub. For a connection that is not in the map, [run] leaves
    the hub exactly as it was, and has printed the two totals, one more
    and back, around one [Close]. *)
Theorem register_unregister_round_trip
    (write_err : list Call → Conn → Msg → bool)
    (range_order : list Call → gmap Conn bool → list Conn)
    (s : St) (cl : gmap Conn bool) (c : Conn) :
  clients (hub s) = Made cl →
  c ∉ registry s →
  run write_err range_order [Register c; Unregister c] s =
    Ok tt {| hub := hub s;
             calls := calls s ++
               [CallPrintf fmt_connected (S (size (registry s)));
                CallClose c;
                CallPrintf fmt_disconnected (size (registry s))] |}.
Proof.
  intros Hcl Hout. rewrite (registry_made _ _ Hcl) in *.
  apply not_elem_of_dom in Hout.
  rewrite run_cons, (run_case_register _ _ _ _ _ Hcl).
  rewrite run_cons.
  erewrite run_case_unregister_present; [|reflexivity|apply lookup_insert_eq].
  rewrite run_nil. simpl.
  rewrite (delete_insert_id _ _ _ Hout), (map_size_insert_None _ _ _ Hout), size_dom.
  rewrite <- app_assoc. simpl. f_equal. f_equal.
  destruct s as [[cl0 b r u] t]. simpl in *. by subst.
Qed.

Lemma register_unregister_round_trip_witness :
  run never_fails canonical_order [Register peerC; Unregister peerC]
    (hub_with [peerA; peerB]) =
  Ok tt {| hub := hub (hub_with [peerA; peerB]);
           calls := calls (hub_with [peerA; peerB]) ++
             [CallPrintf fmt_connected (S (size (registry (hub_with [peerA; peerB]))));
              CallClose peerC;
              CallPrintf fmt_disconnected (size (registry (hub_with [peerA; peerB])))] |}.
Proof.
  eapply (register_unregister_round_trip never_fails canonical_order
            (hub_with [peerA; peerB]) _ peerC).
  - reflexivity.
  - apply not_elem_of_dom. reflexivity.
Defined.

(** ** The order of registrations *)

Lemma run_membership_entries write_err range_order evs : ∀ s cl,
  forallb is_membership evs = true →
  clients (hub s) = Made cl →
  ∃ s' cl',
    run write_err range_order evs s = Ok tt s' ∧
    hub s' = set_clients (hub s) (Made cl') ∧
    ∀ p, cl' !! p = entry_after p evs (cl !! p).
Proof.
  induction evs as [|ev evs IH]; intros s cl Hevs Hcl.
  - exists s, cl. rewrite run_nil. split; [done|]. split; [|done].
    destruct s as [[cl0 b r u] t]. simpl in *. by subst.
  - simpl in Hevs. apply andb_true_iff in Hevs as [Hev Hevs].
    assert (Hcase : ∃ s1 cl1,
              run_case write_err range_order ev s = Ok tt s1 ∧
              hub s1 = set_clients (hub s) (Made cl1) ∧
              ∀ p, cl1 !! p = entry_after p [ev] (cl !! p)).
    { destruct ev as [c|c|m]; [| |done].
      - eexists _, _. split; [by apply run_case_register|]. split; [done|].
        intros p. unfold entry_after. simpl. case_decide as Hp.
        + subst. apply lookup_insert_eq.
        + by apply lookup_insert_ne.
      - destruct (cl !! c) as [v|] eqn:Hc.
        + eexists _, _. split; [by eapply run_case_unregister_present|].
          split; [done|]. intros p. unfold entry_after. simpl. case_decide as Hp.
          * subst. apply lookup_delete_eq.
          * by apply lookup_delete_ne.
        + exists s, cl. split.
          * apply run_case_unregister_absent.
            rewrite (registry_made _ _ Hcl). by apply not_elem_of_dom.
          * split; [destruct s as [[cl0 b r u] t]; simpl in *; by subst|].
            intros p. unfold entry_after. simpl. case_decide as Hp; [by subst|done]. }
    destruct Hcase as (s1 & cl1 & Hrun1 & Hhub1 & Hent1).
    assert (Hcl1 : clients (hub s1) = Made cl1) by (by rewrite Hhub1).
    destruct (IH s1 cl1 Hevs Hcl1) as (s' & cl' & Hrun & Hhub & Hent).
    exists s', cl'. rewrite run_cons, Hrun1. split; [done|].
    split; [by rewrite Hhub, Hhub1|].
    intros p. rewrite Hent, Hent1. unfold entry_after. simpl.
    by destruct (last_op p evs) as [[|]|].
Qed.

(** X9: the order in which registrations of different connections reach
    [run] does not matter. Two sequences of [Register] and [Unregister]
    events in which the latest event of every connection is the same
    leave the same hub, whatever the order of the events of different
    connections; the entry of a connection is decided by its own latest
    event alone. *)
Theorem membership_order_irrelevant
    (write_err : list Call → Conn → Msg → bool)
    (range_order : list Call → gmap Conn bool → list Conn)
    (evs1 evs2 : list Event) (s : St) (cl : gmap Conn bool) :
  forallb is_membership evs1 = true →
  forallb is_membership evs2 = true →
  clients (hub s) = Made cl →
  (∀ p, last_op p evs1 = last_op p evs2) →
  ∃ s1 s2 cl',
    run write_err range_order evs1 s = Ok tt s1 ∧
    run write_err range_order evs2 s = Ok tt s2 ∧
    hub s1 = hub s2 ∧
    clients (hub s1) = Made cl' ∧
    ∀ p, cl' !! p = entry_after p evs1 (cl !! p).
Proof.
  intros Hevs1 Hevs2 Hcl Hlast.
  destruct (run_membership_entries write_err range_order evs1 s cl Hevs1 Hcl)
    as (s1 & cl1 & Hrun1 & Hhub1 & Hent1).
  destruct (run_membership_entries write_err range_order evs2 s cl Hevs2 Hcl)
    as (s2 & cl2 & Hrun2 & Hhub2 & Hent2).
  exists s1, s2, cl1. split; [done|]. split; [done|].
  split; [|split; [by rewrite Hhub1|done]].
  rewrite Hhub1, Hhub2. f_equal. f_equal. apply map_eq. intros p.
  rewrite Hent1, Hent2. unfold entry_after. by rewrite Hlast.
Qed.

Lemma membership_order_irrelevant_witness :
  ∃ s1 s2 cl',
    run never_fails canonical_order
      [Register peerA; Register peerB; Unregister peerA; Register peerC]
      (hub_with [peerC]) = Ok tt s1 ∧
    run never_fails canonical_order
      [Register peerC; Unregister peerA; Register peerA; Unregister peerA; Register peerB]
      (hub_with [peerC]) = Ok tt s2 ∧
    hub s1 = hub s2 ∧
    clients (hub s1) = Made cl' ∧
    ∀ p, cl' !! p =
         entry_after p [Register peerA; Register peerB; Unregister peerA; Register peerC]
           ((list_to_map [(peerC, true)] : gmap positive bool) !! p).
Proof.
  eapply (membership_order_irrelevant never_fails canonical_order
            [Register peerA; Register peerB; Unregister peerA; Register peerC]
            [Register peerC; Unregister peerA; Register peerA; Unregister peerA;
             Register peerB]
            (hub_with [peerC])).
  - reflexivity.
  - reflexivity.
  - reflexivity.
  - intros p. simpl. unfold peerA, peerB, peerC. repeat case_decide; congruence.
Defined.

(** ** The map in the running program *)

Section ProgramMap.

Variable write_err : list Call → Conn → Msg → bool.
Variable range_order : list Call → gmap Conn bool → list Conn.
Hypothesis range_order_ok : range_ok range_order.

Lemma case_post_values_true ev (cl cl' : gmap Conn bool) t :
  case_post ev cl cl' t →
  (∀ c v, cl !! c = Some v → v = true) →
  ∀ c v, cl' !! c = Some v → v = true.
Proof.
  intros Hpost Htrue c v. destruct ev as [k|k|m]; simpl in Hpost.
  - destruct Hpost as [-> _]. destruct (decide (k = c)) as [->|Hne].
    + rewrite lookup_insert_eq. by intros [= <-].
    + rewrite lookup_insert_ne by done. apply Htrue.
  - destruct Hpost as [(_ & -> & _)|(_ & -> & _)]; [|apply Htrue].
    intros [_ Hv]%lookup_delete_Some. by eapply Htrue.
  - destruct Hpost as (t' & _ & _ & _ & H3 & H4).
    destruct (decide (send_failed c m t')) as [Hf|Hf].
    + destruct (H3 c Hf) as (_ & _ & Hout). apply not_elem_of_dom in Hout.
      congruence.
    + destruct (H4 c Hf) as [_ ->]. apply Htrue.
Qed.

Lemma reachable_values_true σ :
  reachable write_err range_order σ →
  ∃ cl, clients (hub (state σ)) = Made cl ∧ ∀ c v, cl !! c = Some v → v = true.
Proof.
  induction 1 as [|σ a σ' Hreach (cl & Hcl & Htrue) Hstep].
  - exists ∅. split; [done|]. intros c v. by rewrite lookup_empty.
  - pose proof (reachable_unbuffered _ _ _ Hreach) as Hunb.
    destruct Hstep as [σ conn Ht|σ conn res Ht|σ conn pc ev pc' Ht Hs Hroom
                      |σ conn pc ev pc' Ht Hs Hr Hb|σ ev h' Hr Hpop|σ ev s' Hr Hrun];
      simpl; eauto.
    + by rewrite (unbuffered_no_room _ _ Hunb) in Hroom.
    + rewrite (unbuffered_pop _ Hunb) in Hpop. by apply elem_of_nil in Hpop.
    + destruct (run_case_spec write_err range_order range_order_ok ev (state σ) cl Hcl)
        as (cl' & t & Hrun' & Hpost).
      rewrite Hrun in Hrun'. injection Hrun' as ->.
      exists cl'. split; [done|]. by eapply case_post_values_true.
Qed.

End ProgramMap.

(** X5: [run] never panics. In every state the program reaches the map of
    the hub is a made map, as [newHub] left it, every entry in it holds
    [true] (the map is used as a set), and whatever the value [run]
    receives next, its case returns. *)
Theorem run_never_panics
    (write_err : list Call → Conn → Msg → bool)
    (range_order : list Call → gmap Conn bool → list Conn)
    (σ : Sys) :
  range_ok range_order →
  reachable write_err range_order σ →
  ∃ cl,
    clients (hub (state σ)) = Made cl ∧
    (∀ c v, cl !! c = Some v → v = true) ∧
    (∀ ev, ∃ s', run_case write_err range_order ev (state σ) = Ok tt s').
Proof.
  intros Hok Hreach.
  destruct (reachable_values_true write_err range_order Hok σ Hreach)
    as (cl & Hcl & Htrue).
  exists cl. split; [done|]. split; [done|]. intros ev.
  destruct (run_case_spec write_err range_order Hok ev (state σ) cl Hcl)
    as (cl' & t & Hrun & _).
  eauto.
Qed.

Lemma run_never_panics_witness :
  ∃ cl,
    clients (hub (state registered_example)) = Made cl ∧
    (∀ c v, cl !! c = Some v → v = true) ∧
    (∀ ev, ∃ s',
       run_case never_fails canonical_order ev (state registered_example) = Ok tt s').
Proof.
  apply (run_never_panics never_fails canonical_order registered_example).
  - intros t m. reflexivity.
  - exact reachable_registered_example.
Defined.



(** ** No call on a closed connection *)

Lemma writes_app c t1 t2 : writes c (t1 ++ t2) = writes c t1 + writes c t2.
Proof. apply count_calls_app. Qed.

Lemma closes_app c t1 t2 : closes c (t1 ++ t2) = closes c t1 + closes c t2.
Proof. apply count_calls_app. Qed.

Lemma quiet_after_close_app c t1 t2 :
  quiet_after_close c t1 →
  quiet_after_close c t2 →
  (0 < closes c t1 → writes c t2 = 0 ∧ closes c t2 = 0) →
  quiet_after_close c (t1 ++ t2).
Proof.
  induction t1 as [|call t1 IH]; intros H1 H2 H12; [done|].
  destruct H1 as [Hhead H1]. simpl. split.
  - intros Hcl. destruct (Hhead Hcl) as [Hw Hc].
    rewrite writes_app, closes_app, Hw, Hc.
    apply H12. rewrite closes_cons, Hcl. lia.
  - apply IH; [done|done|]. intros Hpos. apply H12. rewrite closes_cons. lia.
Qed.

Lemma quiet_after_close_split c t1 t2 :
  quiet_after_close c (t1 ++ CallClose c :: t2) →
  writes c t2 = 0 ∧ closes c t2 = 0.
Proof.
  induction t1 as [|call t1 IH]; simpl.
  - intros [H _]. apply H. by apply bool_decide_eq_true.
  - intros [_ H]. by apply IH.
Qed.

Section Quiet.

Variable write_err : list Call → Conn → Msg → bool.
Variable range_order : list Call → gmap Conn bool → list Conn.
Hypothesis range_order_ok : range_ok range_order.

Lemma write_calls_other c k m e :
  c ≠ k → writes c (write_calls k m e) = 0 ∧ closes c (write_calls k m e) = 0.
Proof.
  intros Hne. unfold write_calls, writes, closes. destruct e; simpl;
    rewrite ?bool_decide_false by done; done.
Qed.

Lemma fanout_cons m k rest t0 cl :
  fanout write_err m (k :: rest) t0 cl =
    match cl !! k with
    | None => fanout write_err m rest t0 cl
    | Some _ =>
        ((fanout write_err m rest (t0 ++ write_calls k m (write_err t0 k m))
            (if write_err t0 k m then delete k cl else cl)).1,
         write_calls k m (write_err t0 k m) ++
         (fanout write_err m rest (t0 ++ write_calls k m (write_err t0 k m))
            (if write_err t0 k m then delete k cl else cl)).2)
    end.
Proof. reflexivity. Qed.

(** The loop makes no call on a connection that it does not visit or that
    is not in the map. *)
Lemma fanout_absent m order c : ∀ t0 cl,
  c ∉ order ∨ c ∉ dom cl →
  writes c (fanout write_err m order t0 cl).2 = 0 ∧
  closes c (fanout write_err m order t0 cl).2 = 0.
Proof.
  induction order as [|k rest IH]; intros t0 cl Hc; [done|].
  rewrite fanout_cons. destruct (cl !! k) as [v|] eqn:Hk; cbn [fst snd].
  - assert (Hne : c ≠ k).
    { intros ->. destruct Hc as [Hc|Hc]; [apply Hc; by left|].
      apply Hc, elem_of_dom. eauto. }
    destruct (write_calls_other c k m (write_err t0 k m) Hne) as [Hw Hcl].
    rewrite writes_app, closes_app, Hw, Hcl. apply IH.
    destruct Hc as [Hc|Hc]; [left; by eapply not_in_tail|right].
    destruct (write_err t0 k m); [by apply dom_delete_notin|done].
  - apply IH. destruct Hc as [Hc|Hc]; [|by right].
    destruct (decide (c = k)) as [->|Hne]; [right; by apply not_elem_of_dom|].
    left. by eapply not_in_tail.
Qed.

Lemma fanout_quiet m order c : ∀ t0 cl,
  NoDup order →
  quiet_after_close c (fanout write_err m order t0 cl).2.
Proof.
  induction order as [|k rest IH]; intros t0 cl Hnd; [done|].
  apply NoDup_cons in Hnd as [Hk Hnd].
  simpl fanout. destruct (cl !! k) as [v|] eqn:Hkl; cbn [fst snd]; [|by apply IH].
  unfold write_calls. destruct (write_err t0 k m); simpl.
  - split; [done|]. split; [|by apply IH].
    intros ->%bool_decide_eq_true. apply fanout_absent. by left.
  - split; [done|]. by apply IH.
Qed.

(** The calls of one case of [run]: none after a close of the connection
    closed, and none at all on a connection that is not in the map. *)
Lemma run_case_quiet ev s cl c :
  clients (hub s) = Made cl →
  ∃ s' t,
    run_case write_err range_order ev s = Ok tt s' ∧
    calls s' = calls s ++ t ∧
    quiet_after_close c t ∧
    (c ∉ registry s → writes c t = 0 ∧ closes c t = 0).
Proof.
  intros Hcl. rewrite (registry_made _ _ Hcl). destruct ev as [k|k|m].
  - eexists _, _. split; [by apply run_case_register|]. split; [done|].
    by repeat split.
  - destruct (cl !! k) as [v|] eqn:Hk.
    + eexists _, _. split; [by eapply run_case_unregister_present|]. split; [done|].
      split; [by repeat split|]. intros Hout.
      assert (k ≠ c) by (intros ->; apply Hout, elem_of_dom; eauto).
      unfold writes, closes. simpl. by rewrite bool_decide_false.
    + exists s, []. split.
      * apply run_case_unregister_absent.
        rewrite (registry_made _ _ Hcl). by apply not_elem_of_dom.
      * by rewrite app_nil_r.
  - eexists _, _. split; [by apply run_case_broadcast_fanout|]. split; [done|].
    split.
    + split; [done|]. apply fanout_quiet. by apply range_ok_NoDup.
    + intros Hout. rewrite writes_cons, closes_cons. simpl.
      apply fanout_absent. by right.
Qed.

Lemma step_registered_mono σ a σ' c :
  unbuffered (hub (state σ)) →
  step write_err range_order σ a σ' →
  registered_by_now σ c ≤ registered_by_now σ' c.
Proof.
  unfold registered_by_now. intros Hunb.
  destruct 1 as [σ conn Ht|σ conn res Ht|σ conn pc ev pc' Ht Hs Hroom
                |σ conn pc ev pc' Ht Hs Hr Hb|σ ev h' Hr Hpop|σ ev s' Hr Hrun];
    simpl.
  - destruct (decide (c = conn)) as [->|Hne].
    + rewrite lookup_insert_eq, Ht. lia.
    + by rewrite lookup_insert_ne.
  - destruct (decide (c = conn)) as [->|Hne].
    + rewrite lookup_insert_eq, Ht. by destruct res.
    + by rewrite lookup_insert_ne.
  - by rewrite (unbuffered_no_room _ _ Hunb) in Hroom.
  - destruct (handleWS_send_event conn pc ev pc' c Hs) as [Hreg _]. rewrite Hr.
    destruct (decide (c = conn)) as [->|Hne].
    + rewrite lookup_insert_eq, Ht. destruct pc; simplify_eq/=; try lia;
        repeat case_decide; simplify_eq; lia.
    + rewrite lookup_insert_ne by done.
      destruct (tasks σ !! c) as [[]|]; try lia;
        repeat case_decide; simplify_eq; try lia;
        by destruct Hreg as [? _].
  - rewrite (unbuffered_pop _ Hunb) in Hpop. by apply elem_of_nil in Hpop.
  - rewrite Hr. destruct (tasks σ !! c) as [[]|]; try lia;
      repeat case_decide; simplify_eq; lia.
Qed.

Lemma reachable_quiet σ c :
  reachable write_err range_order σ →
  quiet_after_close c (calls (state σ)) ∧
  (registered_by_now σ c = 0 →
     writes c (calls (state σ)) = 0 ∧ closes c (calls (state σ)) = 0).
Proof.
  induction 1 as [|σ a σ' Hreach [IHq IHw] Hstep]; [by repeat split|].
  pose proof (reachable_unbuffered _ _ _ Hreach) as Hunb.
  pose proof (step_registered_mono σ a σ' c Hunb Hstep) as Hmono.
  destruct (reachable_closes_inv write_err range_order range_order_ok σ Hreach)
    as [[cl Hcl] Hinv].
  destruct (Hinv c) as (H1 & _).
  assert (Hsame : calls (state σ') = calls (state σ) →
            quiet_after_close c (calls (state σ')) ∧
            (registered_by_now σ' c = 0 →
               writes c (calls (state σ')) = 0 ∧ closes c (calls (state σ')) = 0)).
  { intros ->. split; [done|]. intros H0. apply IHw. lia. }
  destruct Hstep as [σ conn Ht|σ conn res Ht|σ conn pc ev pc' Ht Hs Hroom
                    |σ conn pc ev pc' Ht Hs Hr Hb|σ ev h' Hr Hpop|σ ev s' Hr Hrun];
    try (by apply Hsame).
  destruct (run_case_quiet ev (state σ) cl c Hcl) as (s'' & t & Hrun' & Hcalls & Hq & Hout).
  rewrite Hrun in Hrun'. injection Hrun' as <-. simpl. rewrite Hcalls.
  assert (Hgone : closes c (calls (state σ)) + live c (state σ) ≤ 1 →
            0 < closes c (calls (state σ)) ∨ registered_by_now σ c = 0 →
            c ∉ registry (state σ)).
  { unfold live in *. case_decide; [|done]. intros ? [?|?]; lia. }
  assert (Hle : closes c (calls (state σ)) + live c (state σ) ≤ 1).
  { rewrite H1. unfold registered_by_now.
    destruct (tasks σ !! c) as [[]|]; try case_decide; lia. }
  split.
  - apply quiet_after_close_app; [done|done|].
    intros Hpos. apply Hout, Hgone; [done|by left].
  - intros H0. assert (H0' : registered_by_now σ c = 0) by lia.
    destruct (IHw H0') as [Hw Hc].
    destruct (Hout (Hgone Hle (or_intror H0'))) as [Hw' Hc'].
    rewrite writes_app, closes_app. lia.
Qed.

End Quiet.

(** ** A failed send in a broadcast *)

Section FailedSend.

Variable write_err : list Call → Conn → Msg → bool.

(** A peer of the map that the loop visits and whose write fails whenever
    it is made has a failed write among the calls of the loop. *)
Lemma fanout_fails m order c : ∀ t0 cl,
  c ∈ order →
  c ∈ dom cl →
  (∀ h, write_err h c m = true) →
  send_failed c m (fanout write_err m order t0 cl).2.
Proof.
  induction order as [|k rest IH]; intros t0 cl Hin Hd Hfail.
  - by apply elem_of_nil in Hin.
  - rewrite fanout_cons. destruct (decide (k = c)) as [->|Hne].
    + apply elem_of_dom in Hd as [v ->]. cbn [fst snd].
      unfold send_failed. apply elem_of_app. left.
      rewrite Hfail. by left.
    + apply elem_of_cons in Hin as [?|Hin]; [done|].
      destruct (cl !! k) as [v|]; cbn [fst snd]; [|by apply IH].
      unfold send_failed. apply elem_of_app. right. apply IH; [done| |done].
      destruct (write_err t0 k m); [by apply dom_delete_in|done].
Qed.

(** The error recorded with a write of the loop is the one the connection
    returned. *)
Lemma fanout_err m order : ∀ t0 cl c mt m' e,
  CallWriteMessage c mt m' e ∈ (fanout write_err m order t0 cl).2 →
  ∃ h, e = write_err h c m.
Proof.
  induction order as [|k rest IH]; intros t0 cl c mt m' e.
  - by intros ?%elem_of_nil.
  - rewrite fanout_cons. destruct (cl !! k) as [v|]; cbn [fst snd]; [|apply IH].
    intros [Hin|Hin]%elem_of_app; [|by eapply IH].
    unfold write_calls in Hin.
    apply elem_of_cons in Hin as [[= -> -> -> ->]|Hin]; [by eexists|].
    destruct (write_err t0 k m).
    + apply elem_of_cons in Hin as [?|Hin]; [done|]. by apply elem_of_nil in Hin.
    + by apply elem_of_nil in Hin.
Qed.

End FailedSend.

(** C2: a failed send does not end the broadcast. Let [B] be in the map
    and let every write of the message to [B] return an error. Then the
    broadcast case returns, it has made the failing write to [B], and all
    the same [WriteMessage] has been called once with the message on every
    peer that was in the map when the broadcast started, whether the loop
    reaches it before or after [B]. [B] is out of the map when the
    broadcast is done, and so is every peer whose write failed, while a
    peer whose write never fails is still in it. *)
Theorem send_failure_does_not_abort_broadcast
    (write_err : list Call → Conn → Msg → bool)
    (range_order : list Call → gmap Conn bool → list Conn)
    (s : St) (cl : gmap Conn bool) (m : Msg) (B : Conn) :
  range_ok range_order →
  clients (hub s) = Made cl →
  B ∈ registry s →
  (∀ h, write_err h B m = true) →
  ∃ s' t,
    run_case write_err range_order (Broadcast m) s = Ok tt s' ∧
    calls s' = calls s ++ t ∧
    send_failed B m t ∧
    (∀ A, A ∈ registry s → sends A m t = 1) ∧
    (B ∉ registry s') ∧
    (∀ A, A ∈ registry s → (∀ h, write_err h A m = false) → A ∈ registry s') ∧
    (∀ B', send_failed B' m t → B' ∈ registry s ∧ B' ∉ registry s').
Proof.
  intros Hok Hcl HB Hfail. rewrite (registry_made _ _ Hcl) in *.
  destruct (run_case_broadcast write_err range_order s cl m Hok Hcl)
    as (cl' & t & Hrun & H1 & _ & H3 & H4).
  pose proof (run_case_broadcast_fanout write_err range_order s cl m Hcl) as Hrun2.
  rewrite Hrun in Hrun2. injection Hrun2 as _ Hcalls.
  apply app_inv_head in Hcalls. injection Hcalls as Ht.
  assert (HfB : send_failed B m t).
  { rewrite Ht. apply fanout_fails; [|done|done]. by apply range_ok_elem_of. }
  eexists _, (_ :: t). split; [exact Hrun|]. split; [done|].
  unfold registry. simpl.
  split; [by apply send_failed_cons_printf|]. split; [|split; [|split]].
  - intros A HA. destruct (H1 A HA) as [Hs _]. rewrite sends_cons. simpl. lia.
  - by destruct (H3 B HfB) as (_ & _ & Hout).
  - intros A HA Hgood.
    assert (HnA : ¬ send_failed A m t).
    { unfold send_failed. rewrite Ht. intros [h Hh]%fanout_err.
      rewrite Hgood in Hh. discriminate Hh. }
    destruct (H4 A HnA) as [_ Hl]. apply elem_of_dom. rewrite Hl.
    by apply elem_of_dom.
  - intros B' HB'. apply send_failed_cons_printf in HB'.
    by destruct (H3 B' HB') as (_ & Hin & Hout).
Qed.

Lemma send_failure_does_not_abort_broadcast_witness :
  ∃ s' t,
    run_case (fails_for peerB) canonical_order (Broadcast hello)
      (hub_with [peerA; peerB; peerC]) = Ok tt s' ∧
    calls s' = calls (hub_with [peerA; peerB; peerC]) ++ t ∧
    send_failed peerB hello t ∧
    (∀ A, A ∈ registry (hub_with [peerA; peerB; peerC]) → sends A hello t = 1) ∧
    (peerB ∉ registry s') ∧
    (∀ A, A ∈ registry (hub_with [peerA; peerB; peerC]) →
          (∀ h, fails_for peerB h A hello = false) → A ∈ registry s') ∧
    (∀ B', send_failed B' hello t →
           B' ∈ registry (hub_with [peerA; peerB; peerC]) ∧ B' ∉ registry s').
Proof.
  eapply (send_failure_does_not_abort_broadcast (fails_for peerB) canonical_order
            (hub_with [peerA; peerB; peerC]) _ hello peerB).
  - intros t m. reflexivity.
  - reflexivity.
  - apply elem_of_dom. by eexists.
  - intros h. reflexivity.
Defined.

(** The broadcast of C2 run as it is: the write to B fails in the middle,
    B is closed, and the write to A after it is still made. *)
Example failed_send_in_the_middle :
  run_case (fails_for peerB) canonical_order (Broadcast hello)
    (hub_with [peerA; peerB; peerC]) =
  Ok tt {| hub := hub (hub_with [peerA; peerC]);
           calls := [CallPrintf fmt_broadcasting 3;
                     CallWriteMessage peerC TextMessage hello false;
                     CallWriteMessage peerB TextMessage hello true;
                     CallClose peerB;
                     CallWriteMessage peerA TextMessage hello false] |}.
Proof. vm_compute. reflexivity. Qed.

(** X3: [run] makes no call on a connection that it has closed, and none
    on a connection that it has not registered yet. In every state the
    program reaches, after a [Close] of a connection the calls of [run]
    hold no [WriteMessage] and no second [Close] on it; and as long as the
    code of [handleWS] for a connection has not handed over its
    [Register], or [run] still holds it, no call on it has been made. *)
Theorem no_call_on_closed_or_unregistered
    (write_err : list Call → Conn → Msg → bool)
    (range_order : list Call → gmap Conn bool → list Conn)
    (σ : Sys) (c : Conn) :
  range_ok range_order →
  reachable write_err range_order σ →
  (∀ t1 t2, calls (state σ) = t1 ++ CallClose c :: t2 →
            writes c t2 = 0 ∧ closes c t2 = 0) ∧
  (tasks σ !! c = None ∨ tasks σ !! c = Some AtRegister ∨
   received σ = Some (Register c) →
   writes c (calls (state σ)) = 0 ∧ closes c (calls (state σ)) = 0).
Proof.
  intros Hok Hreach.
  destruct (reachable_quiet write_err range_order Hok σ c Hreach) as [Hq Hw].
  split.
  - intros t1 t2 Heq. rewrite Heq in Hq. by apply quiet_after_close_split in Hq.
  - intros Hearly. apply Hw. unfold registered_by_now.
    destruct Hearly as [->|[->|Hr]]; [done|done|].
    destruct (tasks σ !! c) as [[]|]; try done; by rewrite decide_True.
Qed.

Lemma no_call_on_closed_or_unregistered_witness :
  (∀ t1 t2, calls (state closed_example) = t1 ++ CallClose peerA :: t2 →
            writes peerA t2 = 0 ∧ closes peerA t2 = 0) ∧
  (tasks closed_example !! peerB = None ∨ tasks closed_example !! peerB = Some AtRegister ∨
   received closed_example = Some (Register peerB) →
   writes peerB (calls (state closed_example)) = 0 ∧
   closes peerB (calls (state closed_example)) = 0).
Proof.
  split.
  - apply (no_call_on_closed_or_unregistered never_fails canonical_order
             closed_example peerA ltac:(intros t m; reflexivity)
             reachable_closed_example).
  - apply (no_call_on_closed_or_unregistered never_fails canonical_order
             closed_example peerB ltac:(intros t m; reflexivity)
             reachable_closed_example).
Defined.

(** ** The code of [handleWS] only moves on *)

Section Lifecycle.

Variable write_err : list Call → Conn → Msg → bool.
Variable range_order : list Call → gmap Conn bool → list Conn.

Lemma step_rank σ a σ' c :
  step write_err range_order σ a σ' →
  pc_rank (tasks σ !! c) ≤ pc_rank (tasks σ' !! c).
Proof.
  destruct 1 as [σ conn Ht|σ conn res Ht|σ conn pc ev pc' Ht Hs Hroom
                |σ conn pc ev pc' Ht Hs Hr Hb|σ ev h' Hr Hpop|σ ev s' Hr Hrun];
    simpl; try done;
    (destruct (decide (c = conn)) as [->|Hne];
       [rewrite lookup_insert_eq, Ht|by rewrite lookup_insert_ne]).
  - simpl. lia.
  - destruct res; simpl; lia.
  - destruct pc; simplify_eq/=; lia.
  - destruct pc; simplify_eq/=; lia.
Qed.

Lemma steps_rank σ σ' c :
  steps write_err range_order σ σ' →
  pc_rank (tasks σ !! c) ≤ pc_rank (tasks σ' !! c).
Proof.
  induction 1 as [|σ a σ' σ'' Hstep _ IH]; [done|].
  pose proof (step_rank σ a σ' c Hstep). lia.
Qed.

Lemma steps_reachable σ σ' :
  reachable write_err range_order σ →
  steps write_err range_order σ σ' →
  reachable write_err range_order σ'.
Proof.
  intros Hreach. induction 1 as [|σ a σ' σ'' Hstep _ IH]; [done|].
  apply IH. by eapply reachable_step.
Qed.

(** The step in which a value reaches [run] is a send of the code that
    stands at that send. *)
Lemma hand_over_from σ a σ' ev :
  unbuffered (hub (state σ)) →
  step write_err range_order σ a σ' →
  received σ = None →
  received σ' = Some ev →
  ∃ conn pc pc',
    a = Handler conn ∧ tasks σ !! conn = Some pc ∧
    handleWS_send conn pc = Some (ev, pc').
Proof.
  intros Hunb Hstep Hr Hr'.
  destruct Hstep as [σ conn Ht|σ conn res Ht|σ conn pc ev' pc' Ht Hs Hroom
                    |σ conn pc ev' pc' Ht Hs _ Hb|σ ev' h' _ Hpop|σ ev' s' Hr0 Hrun];
    simpl in Hr'; try congruence.
  - injection Hr' as ->. by exists conn, pc, pc'.
  - rewrite (unbuffered_pop _ Hunb) in Hpop. by apply elem_of_nil in Hpop.
Qed.

End Lifecycle.

(** X7: the code of [handleWS] for a connection only moves on. Over any
    number of steps of the program it never returns to an earlier point:
    once it has exited it stays exited, the [Register] of a connection is
    handed to [run] only by code that has not got past that send, and its
    [Unregister] only by code that has not exited; so each is handed over
    at most once. *)
Theorem handler_only_moves_on
    (write_err : list Call → Conn → Msg → bool)
    (range_order : list Call → gmap Conn bool → list Conn)
    (σ σ' : Sys) (c : Conn) :
  reachable write_err range_order σ →
  steps write_err range_order σ σ' →
  pc_rank (tasks σ !! c) ≤ pc_rank (tasks σ' !! c) ∧
  (tasks σ !! c = Some Exited → tasks σ' !! c = Some Exited) ∧
  (∀ a σ'', step write_err range_order σ' a σ'' →
     received σ' = None →
     (received σ'' = Some (Register c) →
        tasks σ' !! c = Some AtRegister ∧ pc_rank (tasks σ !! c) ≤ 1 ∧
        tasks σ'' !! c = Some AtRead) ∧
     (received σ'' = Some (Unregister c) →
        tasks σ' !! c = Some AtUnregister ∧ pc_rank (tasks σ !! c) ≤ 3 ∧
        tasks σ'' !! c = Some Exited)).
Proof.
  intros Hreach Hsteps.
  pose proof (steps_rank write_err range_order σ σ' c Hsteps) as Hrank.
  split; [done|]. split.
  - intros Hex. rewrite Hex in Hrank. simpl in Hrank.
    destruct (tasks σ' !! c) as [[]|]; simpl in Hrank; first [done|lia].
  - intros a σ'' Hstep Hr.
    pose proof (steps_reachable _ _ _ _ Hreach Hsteps) as Hreach'.
    pose proof (reachable_unbuffered _ _ _ Hreach') as Hunb.
    assert (Hto : ∀ ev, received σ'' = Some ev →
              ∃ conn pc pc', tasks σ' !! conn = Some pc ∧
                handleWS_send conn pc = Some (ev, pc') ∧
                tasks σ'' !! conn = Some pc').
    { intros ev Hr''.
      destruct (hand_over_from _ _ _ _ _ ev Hunb Hstep Hr Hr'')
        as (conn & pc & pc' & -> & Ht & Hs).
      exists conn, pc, pc'. split; [done|]. split; [done|].
      by destruct (handler_send_step _ _ _ _ _ _ _ _ Hunb Ht Hs Hstep)
        as (_ & _ & _ & ->); rewrite lookup_insert_eq. }
    split; intros Hr''; destruct (Hto _ Hr'') as (conn & pc & pc' & Ht & Hs & Ht').
    + destruct (handleWS_send_event conn pc _ pc' c Hs) as [Hreg _].
      destruct Hreg as (-> & -> & ->); [done|].
      rewrite Ht in Hrank. simpl in Hrank. by repeat split.
    + destruct (handleWS_send_event conn pc _ pc' c Hs) as [_ Hunreg].
      destruct Hunreg as (-> & -> & ->); [done|].
      rewrite Ht in Hrank. simpl in Hrank. by repeat split.
Qed.

Lemma handler_only_moves_on_witness :
  pc_rank (tasks init_sys !! peerA) ≤ pc_rank (tasks accepted_example !! peerA) ∧
  (tasks init_sys !! peerA = Some Exited → tasks accepted_example !! peerA = Some Exited) ∧
  (∀ a σ'', step never_fails canonical_order accepted_example a σ'' →
     received accepted_example = None →
     (received σ'' = Some (Register peerA) →
        tasks accepted_example !! peerA = Some AtRegister ∧
        pc_rank (tasks init_sys !! peerA) ≤ 1 ∧
        tasks σ'' !! peerA = Some AtRead) ∧
     (received σ'' = Some (Unregister peerA) →
        tasks accepted_example !! peerA = Some AtUnregister ∧
        pc_rank (tasks init_sys !! peerA) ≤ 3 ∧
        tasks σ'' !! peerA = Some Exited)).
Proof.
  apply (handler_only_moves_on never_fails canonical_order init_sys accepted_example peerA).
  - apply reachable_init.
  - apply (steps_step _ _ init_sys (Handler peerA) accepted_example accepted_example).
    + exact (step_accept _ _ init_sys peerA eq_refl).
    + apply steps_refl.
Defined.

(** ** What is written was read *)

Section Reading.

Variable write_err : list Call → Conn → Msg → bool.
Variable range_order : list Call → gmap Conn bool → list Conn.
Hypothesis range_order_ok : range_ok range_order.

Lemma reachable_reading_reachable σ ms :
  reachable_reading write_err range_order σ ms → reachable write_err range_order σ.
Proof.
  induction 1 as [|σ ms a σ' _ IH Hstep]; [apply reachable_init|].
  by eapply reachable_step.
Qed.

Lemma reachable_has_reading σ :
  reachable write_err range_order σ →
  ∃ ms, reachable_reading write_err range_order σ ms.
Proof.
  induction 1 as [|σ a σ' _ [ms IH] Hstep]; [exists []; apply reading_init|].
  eexists. by eapply reading_step.
Qed.

(** The loop writes the message it is given, as a text message. *)
Lemma fanout_writes m order : ∀ t0 cl c mt m' e,
  CallWriteMessage c mt m' e ∈ (fanout write_err m order t0 cl).2 →
  mt = TextMessage ∧ m' = m.
Proof.
  induction order as [|k rest IH]; intros t0 cl c mt m' e.
  - by intros ?%elem_of_nil.
  - rewrite fanout_cons. destruct (cl !! k) as [v|]; cbn [fst snd]; [|apply IH].
    intros [Hin|Hin]%elem_of_app; [|by eapply IH].
    unfold write_calls in Hin.
    apply elem_of_cons in Hin as [[= -> -> -> ->]|Hin]; [done|].
    destruct (write_err t0 k m).
    + apply elem_of_cons in Hin as [?|Hin]; [done|]. by apply elem_of_nil in Hin.
    + by apply elem_of_nil in Hin.
Qed.

Lemma run_case_writes ev s cl s' c mt m e :
  clients (hub s) = Made cl →
  run_case write_err range_order ev s = Ok tt s' →
  CallWriteMessage c mt m e ∈ calls s' →
  CallWriteMessage c mt m e ∈ calls s ∨ (mt = TextMessage ∧ ev = Broadcast m).
Proof.
  intros Hcl Hrun. destruct ev as [k|k|m0].
  - rewrite (run_case_register _ _ _ _ _ Hcl) in Hrun. injection Hrun as <-. simpl.
    intros [?|Hin]%elem_of_app; [by left|].
    apply elem_of_cons in Hin as [?|Hin]; [done|]. by apply elem_of_nil in Hin.
  - destruct (cl !! k) as [v|] eqn:Hk.
    + rewrite (run_case_unregister_present _ _ _ _ _ _ Hcl Hk) in Hrun.
      injection Hrun as <-. simpl.
      intros [?|Hin]%elem_of_app; [by left|].
      apply elem_of_cons in Hin as [?|Hin]; [done|].
      apply elem_of_cons in Hin as [?|Hin]; [done|]. by apply elem_of_nil in Hin.
    + rewrite run_case_unregister_absent in Hrun.
      * injection Hrun as <-. by left.
      * rewrite (registry_made _ _ Hcl). by apply not_elem_of_dom.
  - rewrite (run_case_broadcast_fanout _ _ _ _ _ Hcl) in Hrun. injection Hrun as <-.
    simpl. intros [?|Hin]%elem_of_app; [by left|].
    apply elem_of_cons in Hin as [?|Hin]; [done|].
    apply fanout_writes in Hin as [-> ->]. by right.
Qed.

Lemma reading_inv σ ms :
  reachable_reading write_err range_order σ ms →
  (∀ c mt m e, CallWriteMessage c mt m e ∈ calls (state σ) →
               mt = TextMessage ∧ m ∈ ms) ∧
  (∀ conn m, tasks σ !! conn = Some (AtBroadcast m) → m ∈ ms) ∧
  (∀ m, received σ = Some (Broadcast m) → m ∈ ms).
Proof.
  induction 1 as [|σ ms a σ' Hreading (IHw & IHt & IHr) Hstep].
  - split; [|split]; [by intros c mt m e ?%elem_of_nil| |done].
    intros conn m. simpl. by rewrite lookup_empty.
  - pose proof (reachable_reading_reachable _ _ Hreading) as Hreach.
    pose proof (reachable_unbuffered _ _ _ Hreach) as Hunb.
    destruct (reachable_values_true write_err range_order range_order_ok σ Hreach)
      as (cl & Hcl & _).
    destruct Hstep as [σ conn Ht|σ conn res Ht|σ conn pc ev pc' Ht Hs Hroom
                      |σ conn pc ev pc' Ht Hs Hr Hb|σ ev h' Hr Hpop|σ ev s' Hr Hrun];
      simpl.
    + rewrite Ht, app_nil_r. split; [done|]. split; [|done].
      intros conn' m. destruct (decide (conn' = conn)) as [->|Hne].
      * by rewrite lookup_insert_eq.
      * rewrite lookup_insert_ne by done. apply IHt.
    + rewrite Ht, lookup_insert_eq.
      split; [|split].
      * intros c mt m e Hin. destruct (IHw c mt m e Hin) as [-> Hm].
        split; [done|]. apply elem_of_app. by left.
      * intros conn' m. destruct (decide (conn' = conn)) as [->|Hne].
        -- rewrite lookup_insert_eq. destruct res as [m'|]; [|done].
           intros [= ->]. apply elem_of_app. right. by left.
        -- rewrite lookup_insert_ne by done. intros Hm.
           apply elem_of_app. left. by eapply IHt.
      * intros m Hm. apply elem_of_app. left. by apply IHr.
    + by rewrite (unbuffered_no_room _ _ Hunb) in Hroom.
    + rewrite Ht, lookup_insert_eq.
      assert (Hnil : match pc with
                     | AtRead => match pc' with AtBroadcast message => [message] | _ => [] end
                     | _ => []
                     end = []) by (destruct pc; simplify_eq/=; done).
      rewrite Hnil, app_nil_r. split; [done|]. split.
      * intros conn' m. destruct (decide (conn' = conn)) as [->|Hne].
        -- rewrite lookup_insert_eq. destruct pc; simplify_eq/=; done.
        -- rewrite lookup_insert_ne by done. apply IHt.
      * intros m [= ->]. destruct pc; simplify_eq/=. by eapply IHt.
    + rewrite (unbuffered_pop _ Hunb) in Hpop. by apply elem_of_nil in Hpop.
    + rewrite app_nil_r. split; [|done].
      intros c mt m e Hin.
      destruct (run_case_writes ev (state σ) cl s' c mt m e Hcl Hrun Hin)
        as [Hold|[-> ->]]; [by apply (IHw c mt m e)|].
      split; [done|]. by apply IHr.
Qed.

End Reading.

(** X11: [run] writes only what was read. Whatever the program has done,
    every [WriteMessage] of [run] is a text message whose bytes are those
    of a message that [ReadMessage] returned on some connection before;
    the hub makes up no message and changes none. *)
Theorem written_messages_were_read
    (write_err : list Call → Conn → Msg → bool)
    (range_order : list Call → gmap Conn bool → list Conn)
    (σ : Sys) (ms : list Msg) :
  range_ok range_order →
  reachable_reading write_err range_order σ ms →
  ∀ c mt m e,
    CallWriteMessage c mt m e ∈ calls (state σ) →
    mt = TextMessage ∧ m ∈ ms.
Proof.
  intros Hok Hreading.
  by destruct (reading_inv write_err range_order Hok σ ms Hreading) as [H _].
Qed.

Lemma reading_registered_example :
  reachable_reading never_fails canonical_order registered_example [].
Proof.
  exact (reading_step never_fails canonical_order
           {| state := state accepted_example; received := Some (Register peerA);
              tasks := <[peerA := AtRead]> (tasks accepted_example) |}
           [] Coordinator registered_example
           (reading_step never_fails canonical_order accepted_example [] (Handler peerA)
              {| state := state accepted_example; received := Some (Register peerA);
                 tasks := <[peerA := AtRead]> (tasks accepted_example) |}
              (reading_step never_fails canonical_order init_sys [] (Handler peerA)
                 accepted_example (reading_init _ _)
                 (step_accept _ _ init_sys peerA eq_refl))
              (step_send_direct _ _ accepted_example peerA AtRegister
                 (Register peerA) AtRead eq_refl eq_refl eq_refl eq_refl))
           (step_case never_fails canonical_order
              {| state := state accepted_example; received := Some (Register peerA);
                 tasks := <[peerA := AtRead]> (tasks accepted_example) |}
              (Register peerA) (state registered_example) eq_refl eq_refl)).
Defined.

Lemma reading_delivered_example :
  reachable_reading never_fails canonical_order delivered_example [hello].
Proof.
  exact (reading_step never_fails canonical_order sent_example [hello] Coordinator
           delivered_example
           (reading_step never_fails canonical_order reading_example [hello]
              (Handler peerA) sent_example
              (reading_step never_fails canonical_order registered_example []
                 (Handler peerA) reading_example reading_registered_example
                 (step_read _ _ registered_example peerA (Some hello) eq_refl))
              (step_send_direct _ _ reading_example peerA (AtBroadcast hello)
                 (Broadcast hello) AtRead eq_refl eq_refl eq_refl eq_refl))
           (step_case never_fails canonical_order sent_example (Broadcast hello)
              (state delivered_example) eq_refl eq_refl)).
Defined.

Lemma written_messages_were_read_witness :
  CallWriteMessage peerA TextMessage hello false ∈ calls (state delivered_example) ∧
  TextMessage = TextMessage ∧ hello ∈ [hello].
Proof.
  assert (Hin : CallWriteMessage peerA TextMessage hello false
                ∈ calls (state delivered_example)).
  { apply list_elem_of_In. simpl. tauto. }
  split; [exact Hin|].
  apply (written_messages_were_read never_fails canonical_order delivered_example [hello]
           ltac:(intros t m; reflexivity) reading_delivered_example
           peerA TextMessage hello false Hin).
Defined.
